(** * TinyThread++ (src/include/tinythread.h): mutexes, lock guards, atomics

    A shallow embedding of the portable threading primitives of
    [tinythread.h] and the properties its specification states about them.

    Conventions.
    - The header selects its code with the preprocessor.  Each [#if] is a
      [match] on a value of the configuration: the platform
      ([_TTHREAD_WIN32_] or [_TTHREAD_POSIX_]) is carried by the mutex
      object itself, and the atomics backend is an argument of the atomic
      operations.
    - A method that updates its object is a function from the object to the
      result and the updated object.  A method that may fail to return
      (a blocking [lock()]) returns an [option]; [None] reads "the call has
      not returned".  The only loop of the header that may run forever,
      [while(mAlreadyLocked) Sleep(1000);], takes fuel.
    - The calling thread is an explicit argument [t : tid].
    - Integers of a C++ integer type are [Z] together with the conversion to
      the type, written out as arithmetic modulo [2^bits].
    - A [double] is a primitive binary64 float, with the operations of the
      processor. *)

From Stdlib Require Import ZArith Lia Bool.
From Stdlib Require Import PrimFloat FloatOps SpecFloat Uint63.
From stdpp Require Import base option list relations.

Local Open Scope Z_scope.

(** ** Threads *)

(** Threads are told apart by a number. *)
Abbreviation tid := nat.

(** ** The native lock primitives

    These are not code of the header; they are the operating-system calls it
    is written against, modelled after their documentation. *)

Module Win32.

(** A critical section is owned by at most one thread, and the owner may
    enter it again: the recursion count tells how many times it has. *)
Record CRITICAL_SECTION := {
  OwningThread : option tid;
  RecursionCount : nat
}.

Definition InitializeCriticalSection : CRITICAL_SECTION :=
  {| OwningThread := None; RecursionCount := 0 |}.

(** [TryEnterCriticalSection] succeeds when the section is free or already
    owned by the caller, and fails at once otherwise. *)
Definition TryEnterCriticalSection (t : tid) (cs : CRITICAL_SECTION)
  : bool * CRITICAL_SECTION :=
  match OwningThread cs with
  | None => (true, {| OwningThread := Some t; RecursionCount := 1 |})
  | Some o =>
      if Nat.eqb o t
      then (true, {| OwningThread := Some t;
                     RecursionCount := S (RecursionCount cs) |})
      else (false, cs)
  end.

(** [EnterCriticalSection] waits where [TryEnterCriticalSection] fails:
    [None] says that the caller is still waiting. *)
Definition EnterCriticalSection (t : tid) (cs : CRITICAL_SECTION)
  : option CRITICAL_SECTION :=
  match TryEnterCriticalSection t cs with
  | (true, cs') => Some cs'
  | (false, _) => None
  end.

(** [LeaveCriticalSection] by the owner undoes one entry, and frees the
    section with the last one.  A call by a thread that does not own the
    section is an error of the caller; it is kept as a no-op here and no
    theorem below goes through it. *)
Definition LeaveCriticalSection (t : tid) (cs : CRITICAL_SECTION)
  : CRITICAL_SECTION :=
  match OwningThread cs with
  | Some o =>
      if Nat.eqb o t
      then match RecursionCount cs with
           | S (S n) => {| OwningThread := Some t; RecursionCount := S n |}
           | _ => {| OwningThread := None; RecursionCount := 0 |}
           end
      else cs
  | None => cs
  end.

End Win32.

Module Posix.

(** A pthread mutex with default attributes ([pthread_mutex_init(_, NULL)]):
    owned by at most one thread, not recursive. *)
Record pthread_mutex_t := { owner : option tid }.

Definition EBUSY : Z := 16.

Definition pthread_mutex_init : pthread_mutex_t := {| owner := None |}.

Definition pthread_mutex_trylock (t : tid) (m : pthread_mutex_t)
  : Z * pthread_mutex_t :=
  match owner m with
  | None => (0, {| owner := Some t |})
  | Some _ => (EBUSY, m)
  end.

(** [None]: the caller is still waiting.  A thread that locks a mutex it
    owns waits for itself. *)
Definition pthread_mutex_lock (t : tid) (m : pthread_mutex_t)
  : option pthread_mutex_t :=
  match owner m with
  | None => Some {| owner := Some t |}
  | Some _ => None
  end.

(** Unlocking a mutex the caller does not own is an error of the caller;
    it is kept as a no-op here and no theorem below goes through it. *)
Definition pthread_mutex_unlock (t : tid) (m : pthread_mutex_t)
  : pthread_mutex_t :=
  match owner m with
  | Some o => if Nat.eqb o t then {| owner := None |} else m
  | None => m
  end.

End Posix.

(** ** class mutex *)

Inductive platform := _TTHREAD_WIN32_ | _TTHREAD_POSIX_.

(** The members of [class mutex]: [mHandle] and [mAlreadyLocked] on Win32,
    [mHandle] alone elsewhere. *)
Inductive mutex :=
| mutex_win32 (mHandle : Win32.CRITICAL_SECTION) (mAlreadyLocked : bool)
| mutex_posix (mHandle : Posix.pthread_mutex_t).

(** [mutex::mutex()] *)
Definition mutex_ctor (p : platform) : mutex :=
  match p with
  | _TTHREAD_WIN32_ => mutex_win32 Win32.InitializeCriticalSection false
  | _TTHREAD_POSIX_ => mutex_posix Posix.pthread_mutex_init
  end.

(** [while(mAlreadyLocked) Sleep(1000);] as run by a thread that is alone
    with the flag: [Sleep] changes nothing, so an iteration finds the flag as
    the one before left it. *)
Fixpoint while_mAlreadyLocked (fuel : nat) (mAlreadyLocked : bool)
  : option unit :=
  if mAlreadyLocked
  then match fuel with
       | O => None
       | S fuel' => (* Sleep(1000) *) while_mAlreadyLocked fuel' mAlreadyLocked
       end
  else Some tt.

(** [mutex::lock()] *)
Definition mutex_lock (fuel : nat) (t : tid) (m : mutex) : option mutex :=
  match m with
  | mutex_win32 mHandle mAlreadyLocked =>
      match Win32.EnterCriticalSection t mHandle with
      | Some mHandle' =>
          match while_mAlreadyLocked fuel mAlreadyLocked with
          | Some _ => Some (mutex_win32 mHandle' true)
          | None => None
          end
      | None => None
      end
  | mutex_posix mHandle =>
      match Posix.pthread_mutex_lock t mHandle with
      | Some mHandle' => Some (mutex_posix mHandle')
      | None => None
      end
  end.

(** [mutex::try_lock()] *)
Definition mutex_try_lock (t : tid) (m : mutex) : bool * mutex :=
  match m with
  | mutex_win32 mHandle mAlreadyLocked =>
      let '(entered, mHandle') := Win32.TryEnterCriticalSection t mHandle in
      let ret := if entered then true else false in
      if ret && mAlreadyLocked
      then (false, mutex_win32 (Win32.LeaveCriticalSection t mHandle')
                               mAlreadyLocked)
      else (ret, mutex_win32 mHandle' mAlreadyLocked)
  | mutex_posix mHandle =>
      let '(rc, mHandle') := Posix.pthread_mutex_trylock t mHandle in
      (if Z.eqb rc 0 then true else false, mutex_posix mHandle')
  end.

(** [mutex::unlock()] *)
Definition mutex_unlock (t : tid) (m : mutex) : mutex :=
  match m with
  | mutex_win32 mHandle _ =>
      mutex_win32 (Win32.LeaveCriticalSection t mHandle) false
  | mutex_posix mHandle =>
      mutex_posix (Posix.pthread_mutex_unlock t mHandle)
  end.

(** The thread that holds the native lock of [m], if any. *)
Definition holder (m : mutex) : option tid :=
  match m with
  | mutex_win32 mHandle _ =>
      match Win32.RecursionCount mHandle with
      | O => None
      | S _ => Win32.OwningThread mHandle
      end
  | mutex_posix mHandle => Posix.owner mHandle
  end.

Definition held_by (a : tid) (m : mutex) : Prop := holder m = Some a.

(** A mutex as its constructor leaves it, on either platform. *)
Definition unlocked (m : mutex) : Prop := exists p, m = mutex_ctor p.

(** ** Methods as state transformers *)

(** A method of an object of type [S] with a result of type [A]; [None] when
    the call does not return. *)
Definition M (S A : Type) : Type := S -> option (A * S).

Definition ret {S A : Type} (a : A) : M S A := fun s => Some (a, s).

Definition bind {S A B : Type} (c : M S A) (k : A -> M S B) : M S B :=
  fun s => match c s with
           | Some (a, s') => k a s'
           | None => None
           end.

Definition gets {S A : Type} (f : S -> A) : M S A := fun s => Some (f s, s).

Definition modify {S : Type} (f : S -> S) : M S unit := fun s => Some (tt, f s).

Notation "x <- c1 ;; c2" := (bind c1 (fun x => c2))
  (at level 100, c1 at next level, right associativity).

(** ** template <class T> class lock_guard *)

(** What [lock_guard] asks of its template argument. *)
Class Lockable (T : Type) := {
  lock : nat -> tid -> T -> option T;
  unlock : tid -> T -> T
}.

#[export] Instance mutex_Lockable : Lockable mutex :=
  {| lock := mutex_lock; unlock := mutex_unlock |}.

(** A reference to a [T] that lives inside an [S]: how to read it and how to
    write it back. *)
Record ref (S T : Type) := Ref {
  deref : S -> T;
  assign : T -> S -> S
}.
Arguments Ref {S T} _ _.
Arguments deref {S T} _ _.
Arguments assign {S T} _ _ _.

(** A reference to an object that stands alone. *)
Definition ref_self {T : Type} : ref T T :=
  Ref (fun m => m) (fun m _ => m).

(** The member [mutex_type * mMutex]; the null pointer is [None]. *)
Record lock_guard (S T : Type) := { mMutex : option (ref S T) }.
Arguments mMutex {S T} _.

Section lock_guard.
Context {S T : Type} `{Lockable T}.

(** [lock_guard() : mMutex(0) {}] *)
Definition lock_guard_default : lock_guard S T := {| mMutex := None |}.

(** [explicit lock_guard(mutex_type &aMutex)] *)
Definition lock_guard_ctor (fuel : nat) (t : tid) (aMutex : ref S T)
  : M S (lock_guard S T) :=
  fun s =>
    (* mMutex = &aMutex; mMutex->lock(); *)
    match lock fuel t (deref aMutex s) with
    | Some m => Some ({| mMutex := Some aMutex |}, assign aMutex m s)
    | None => None
    end.

(** [~lock_guard()] *)
Definition lock_guard_dtor (t : tid) (this : lock_guard S T) : M S unit :=
  match mMutex this with
  | Some r => modify (fun s => assign r (unlock t (deref r s)) s)
  | None => ret tt
  end.
End lock_guard.

(** A mutex that records the calls made on it, around any [Lockable] one. *)
Inductive call := call_lock (t : tid) | call_unlock (t : tid).

Record probed (T : Type) := Probed { inner : T; calls : list call }.
Arguments Probed {T} _ _.
Arguments inner {T} _.
Arguments calls {T} _.

#[export] Instance probed_Lockable {T : Type} `{Lockable T}
  : Lockable (probed T) :=
  {| lock := fun fuel t p =>
       match lock fuel t (inner p) with
       | Some m => Some (Probed m (calls p ++ [call_lock t]))
       | None => None
       end;
     unlock := fun t p =>
       Probed (unlock t (inner p)) (calls p ++ [call_unlock t]) |}.

(** ** Integer types *)

(** A C++ integer type: its width and whether it is signed. *)
Record int_type := { bits : positive; is_signed : bool }.

Definition T_min (T : int_type) : Z :=
  if is_signed T then - 2 ^ (Z.pos (bits T) - 1) else 0.

Definition T_max (T : int_type) : Z :=
  if is_signed T then 2 ^ (Z.pos (bits T) - 1) - 1 else 2 ^ Z.pos (bits T) - 1.

Definition in_range (T : int_type) (z : Z) : Prop := T_min T <= z <= T_max T.

(** Conversion of an integer to [T]: the value modulo [2^bits] that lies in
    the range of [T].  This is what the [__sync] builtins compute and what a
    narrowing conversion yields; where the C++ standard leaves a signed
    overflow undefined, the theorems below state the exact value under the
    condition that it is in range. *)
Definition convert (T : int_type) (z : Z) : Z :=
  if is_signed T
  then (z + 2 ^ (Z.pos (bits T) - 1)) mod 2 ^ Z.pos (bits T)
       - 2 ^ (Z.pos (bits T) - 1)
  else z mod 2 ^ Z.pos (bits T).

Definition int : int_type := {| bits := 32; is_signed := true |}.
Definition unsigned_char : int_type := {| bits := 8; is_signed := false |}.
Definition signed_char : int_type := {| bits := 8; is_signed := true |}.
Definition long_long : int_type := {| bits := 64; is_signed := true |}.

(** [static_cast<bool>] of an integer *)
Definition static_cast_bool (z : Z) : bool := negb (Z.eqb z 0).

(** ** enum memory_order *)

Inductive memory_order :=
| memory_order_relaxed
| memory_order_consume
| memory_order_acquire
| memory_order_release
| memory_order_acq_rel
| memory_order_seq_cst.

(** ** The atomics backends *)

(** The compilers and processors for which the header has inline assembly. *)
Inductive asm_arch := GNUC_X86 | MSC_VER_X86 | GNUC_PPC.

(** Which of [_TTHREAD_HAS_ATOMIC_BUILTINS_] and [_TTHREAD_HAS_ASM_ATOMICS_]
    is defined; with neither, the operations are guarded by a mutex. *)
Inductive atomics :=
| HAS_ATOMIC_BUILTINS
| HAS_ASM_ATOMICS (arch : asm_arch)
| NO_ATOMICS.

(** The GCC [__sync] builtins on a cell of type [T]: each takes the contents
    of the cell and returns its result and the new contents, in one step.
    [__sync_lock_test_and_set] is the full exchange that GCC documents for
    the targets that have one, which include those the header names. *)
Module Builtins.
Definition __sync_lock_test_and_set (T : int_type) (cell value : Z) : Z * Z :=
  (cell, value).
Definition __sync_lock_release (T : int_type) (cell : Z) : unit * Z :=
  (tt, 0).
Definition __sync_fetch_and_add (T : int_type) (cell value : Z) : Z * Z :=
  (cell, convert T (cell + value)).
Definition __sync_fetch_and_sub (T : int_type) (cell value : Z) : Z * Z :=
  (cell, convert T (cell - value)).
Definition __sync_add_and_fetch (T : int_type) (cell value : Z) : Z * Z :=
  (convert T (cell + value), convert T (cell + value)).
End Builtins.

(** ** class atomic_flag *)

Module AtomicFlag.

(** [mLock] is a member only when neither the builtins nor the assembly
    are available; the other backends never touch it. *)
Record atomic_flag := { mLock : mutex; mFlag : Z }.

Definition set_mFlag (value : Z) (this : atomic_flag) : atomic_flag :=
  {| mLock := mLock this; mFlag := value |}.

(** [mLock] as [lock_guard] is given it: a reference into the object. *)
Definition mLock_ref : ref atomic_flag mutex :=
  Ref mLock (fun m this => {| mLock := m; mFlag := mFlag this |}).

(** An indivisible operation on [mFlag]: from the contents to a result
    and the new contents. *)
Definition on_mFlag {A : Type} (op : Z -> A * Z) : M atomic_flag A :=
  fun this => let '(a, mem) := op (mFlag this) in Some (a, set_mFlag mem this).

(** [atomic_flag() : mFlag(0)] *)
Definition ctor (p : platform) : atomic_flag :=
  {| mLock := mutex_ctor p; mFlag := 0 |}.

(** [atomic_flag(int value) : mFlag(value)] *)
Definition ctor_int (p : platform) (value : Z) : atomic_flag :=
  {| mLock := mutex_ctor p; mFlag := value |}.

(** The assembly of [test_and_set], one binding per instruction; each
    function takes the contents of [mFlag] and returns [result] and the new
    contents. *)
Definition asm_gnuc_x86_test_and_set (mem : Z) : Z * Z :=
  let eax := 1 in                       (* movl $1,%eax *)
  let '(eax, mem) := (mem, eax) in      (* xchg %eax,mFlag *)
  let result := eax in                  (* movl %eax,result *)
  (result, mem).

Definition asm_msc_x86_test_and_set (mem : Z) : Z * Z :=
  let eax := 1 in                       (* mov eax,1 *)
  (* mov ecx,ptrFlag *)
  let '(eax, mem) := (mem, eax) in      (* xchg eax,[ecx] *)
  let result := eax in                  (* mov result,eax *)
  (result, mem).

(** The PowerPC loop.  [lost] is the number of times the store-conditional
    finds its reservation lost before it goes through. *)
Fixpoint asm_gnuc_ppc_test_and_set (lost : nat) (mem : Z) : Z * Z :=
  let newFlag := 1 in
  let result := mem in                  (* 1: lwarx %0,0,%1 *)
  if Z.eqb result 0                     (* cmpwi 0,%0,0 ; bne- 2f *)
  then match lost with
       | S lost' =>                     (* stwcx. fails ; bne- 1b *)
           asm_gnuc_ppc_test_and_set lost' mem
       | O => (result, newFlag)         (* stwcx. %2,0,%1 ; isync *)
       end
  else (result, mem).                   (* 2: *)

(** [bool test_and_set(memory_order order = memory_order_seq_cst)] *)
Definition test_and_set (cfg : atomics) (lost fuel : nat) (t : tid)
    (order : memory_order) : M atomic_flag bool :=
  match cfg with
  | HAS_ATOMIC_BUILTINS =>
      old <- on_mFlag (fun mem =>
               Builtins.__sync_lock_test_and_set int mem 1) ;;
      ret (static_cast_bool old)
  | HAS_ASM_ATOMICS arch =>
      result <- on_mFlag
                  match arch with
                  | GNUC_X86 => asm_gnuc_x86_test_and_set
                  | MSC_VER_X86 => asm_msc_x86_test_and_set
                  | GNUC_PPC => asm_gnuc_ppc_test_and_set lost
                  end ;;
      ret (static_cast_bool result)
  | NO_ATOMICS =>
      guard <- lock_guard_ctor fuel t mLock_ref ;;
      result <- gets mFlag ;;
      _ <- modify (set_mFlag 1) ;;
      _ <- lock_guard_dtor t guard ;;
      ret (static_cast_bool result)
  end.

(** The assembly of [clear]. *)
Definition asm_gnuc_x86_clear (mem : Z) : unit * Z :=
  let eax := 0 in                       (* movl $0,%eax *)
  let '(eax, mem) := (mem, eax) in      (* xchg %eax,mFlag *)
  (tt, mem).

Definition asm_msc_x86_clear (mem : Z) : unit * Z :=
  let eax := 0 in                       (* mov eax,0 *)
  (* mov ecx,ptrFlag *)
  let '(eax, mem) := (mem, eax) in      (* xchg eax,[ecx] *)
  (tt, mem).

Definition asm_gnuc_ppc_clear (mem : Z) : unit * Z :=
  (* sync *)
  (tt, 0).                              (* mFlag = 0 *)

(** [void clear(memory_order order = memory_order_seq_cst)] *)
Definition clear (cfg : atomics) (fuel : nat) (t : tid)
    (order : memory_order) : M atomic_flag unit :=
  match cfg with
  | HAS_ATOMIC_BUILTINS =>
      on_mFlag (fun mem => Builtins.__sync_lock_release int mem)
  | HAS_ASM_ATOMICS arch =>
      on_mFlag
        match arch with
        | GNUC_X86 => asm_gnuc_x86_clear
        | MSC_VER_X86 => asm_msc_x86_clear
        | GNUC_PPC => asm_gnuc_ppc_clear
        end
  | NO_ATOMICS =>
      guard <- lock_guard_ctor fuel t mLock_ref ;;
      _ <- modify (set_mFlag 0) ;;
      lock_guard_dtor t guard
  end.

(** What a user of the flag can tell of its state: set or cleared. *)
Definition is_set (this : atomic_flag) : bool := static_cast_bool (mFlag this).

End AtomicFlag.

(** ** template <class T> struct atomic *)

Module Atomic.

(** [mLock] is a member only without [_TTHREAD_HAS_ATOMIC_BUILTINS_]; with
    the builtins no operation touches it. *)
Record atomic := { mLock : mutex; mValue : Z }.

Definition set_mValue (value : Z) (this : atomic) : atomic :=
  {| mLock := mLock this; mValue := value |}.

Definition mLock_ref : ref atomic mutex :=
  Ref mLock (fun m this => {| mLock := m; mValue := mValue this |}).

(** An indivisible operation on [mValue]: from the contents to a result
    and the new contents. *)
Definition on_mValue {A : Type} (op : Z -> A * Z) : M atomic A :=
  fun this =>
    let '(a, mem) := op (mValue this) in Some (a, set_mValue mem this).

(** [atomic() : mValue(0)] *)
Definition ctor (p : platform) : atomic :=
  {| mLock := mutex_ctor p; mValue := 0 |}.

(** [atomic(T desired) : mValue(desired)] *)
Definition ctor_T (p : platform) (desired : Z) : atomic :=
  {| mLock := mutex_ctor p; mValue := desired |}.

Section methods.
(** The template argument, the backend, and the calling thread with the
    fuel it grants to [lock()]. *)
Context (T : int_type) (cfg : atomics) (fuel : nat) (t : tid).

(** [bool is_lock_free() const] *)
Definition is_lock_free : bool :=
  match cfg with
  | HAS_ATOMIC_BUILTINS => true
  | _ => false
  end.

(** [void store(T desired, memory_order order = memory_order_seq_cst)] *)
Definition store (desired : Z) (order : memory_order) : M atomic unit :=
  match cfg with
  | HAS_ATOMIC_BUILTINS =>
      _ <- on_mValue (fun mem =>
             Builtins.__sync_lock_test_and_set T mem desired) ;;
      ret tt
  | _ =>
      guard <- lock_guard_ctor fuel t mLock_ref ;;
      _ <- modify (set_mValue desired) ;;
      lock_guard_dtor t guard
  end.

(** [T load(memory_order order = memory_order_seq_cst) const] *)
Definition load (order : memory_order) : M atomic Z :=
  match cfg with
  | HAS_ATOMIC_BUILTINS =>
      on_mValue (fun mem => Builtins.__sync_add_and_fetch T mem 0)
  | _ =>
      guard <- lock_guard_ctor fuel t mLock_ref ;;
      r <- gets mValue ;;
      _ <- lock_guard_dtor t guard ;;
      ret r
  end.

(** [T fetch_add(T arg, memory_order order = memory_order_seq_cst)] *)
Definition fetch_add (arg : Z) (order : memory_order) : M atomic Z :=
  match cfg with
  | HAS_ATOMIC_BUILTINS =>
      on_mValue (fun mem => Builtins.__sync_fetch_and_add T mem arg)
  | _ =>
      guard <- lock_guard_ctor fuel t mLock_ref ;;
      result <- gets mValue ;;
      _ <- modify (fun this =>
             set_mValue (convert T (mValue this + arg)) this) ;;
      _ <- lock_guard_dtor t guard ;;
      ret result
  end.

(** [T fetch_sub(T arg, memory_order order = memory_order_seq_cst)] *)
Definition fetch_sub (arg : Z) (order : memory_order) : M atomic Z :=
  match cfg with
  | HAS_ATOMIC_BUILTINS =>
      on_mValue (fun mem => Builtins.__sync_fetch_and_sub T mem arg)
  | _ =>
      guard <- lock_guard_ctor fuel t mLock_ref ;;
      result <- gets mValue ;;
      _ <- modify (fun this =>
             set_mValue (convert T (mValue this - arg)) this) ;;
      _ <- lock_guard_dtor t guard ;;
      ret result
  end.

(** [T operator=(T desired)] *)
Definition operator_assign (desired : Z) : M atomic Z :=
  _ <- store desired memory_order_seq_cst ;;
  ret desired.

(** [operator T() const] *)
Definition operator_T : M atomic Z := load memory_order_seq_cst.

(** [T operator++()]: [return fetch_add(1) + 1;] *)
Definition operator_inc : M atomic Z :=
  r <- fetch_add 1 memory_order_seq_cst ;;
  ret (convert T (r + 1)).

(** [T operator++(int)]: [return fetch_add(1);] *)
Definition operator_inc_int : M atomic Z :=
  fetch_add 1 memory_order_seq_cst.

(** [T operator--()]: [return fetch_sub(1) - 1;] *)
Definition operator_dec : M atomic Z :=
  r <- fetch_sub 1 memory_order_seq_cst ;;
  ret (convert T (r - 1)).

(** [T operator--(int)]: [return fetch_sub(1);] *)
Definition operator_dec_int : M atomic Z :=
  fetch_sub 1 memory_order_seq_cst.
End methods.

End Atomic.

(** ** ratio, chrono::duration and this_thread::sleep_for *)

(** [double(z)] for [z] of type [long long]: the nearest double. *)
Definition double_of_long_long (z : Z) : float :=
  if Z.eqb z (- 2 ^ 63)
  then PrimFloat.opp (Z.ldexp 1%float 63)
  else if Z.ltb z 0
       then PrimFloat.opp (PrimFloat.of_uint63 (Uint63.of_Z (- z)))
       else PrimFloat.of_uint63 (Uint63.of_Z z).

(** The integer part of a finite double, towards zero. *)
Definition trunc_double (x : float) : option Z :=
  match Prim2SF x with
  | S754_zero _ => Some 0
  | S754_finite s m e =>
      let a := if Z.leb 0 e then Z.pos m * 2 ^ e else Z.pos m / 2 ^ (- e) in
      Some (if s then - a else a)
  | _ => None
  end.

(** [int(x)] for a double [x]: its integer part when that is a value of
    [int]; the conversion is undefined otherwise, which is [None]. *)
Definition int_of_double (x : float) : option Z :=
  match trunc_double x with
  | Some z =>
      if Z.leb (- 2 ^ 31) z && Z.leb z (2 ^ 31 - 1) then Some z else None
  | None => None
  end.

(** [template <__intmax_t N, __intmax_t D = 1> class ratio] *)
Record ratio := Ratio { ratio_N : Z; ratio_D : Z }.

(** [static double _as_double() { return double(N) / double(D); }] *)
Definition _as_double (r : ratio) : float :=
  PrimFloat.div (double_of_long_long (ratio_N r))
                (double_of_long_long (ratio_D r)).

(** [template <class _Rep, class _Period> class duration], for the
    [_Rep = __intmax_t] of the standard duration types. *)
Record duration := Duration { period : ratio; rep_ : Z }.

(** [rep count() const] *)
Definition count (d : duration) : Z := rep_ d.

Definition nanoseconds (r : Z) : duration := Duration (Ratio 1 1000000000) r.
Definition microseconds (r : Z) : duration := Duration (Ratio 1 1000000) r.
Definition milliseconds (r : Z) : duration := Duration (Ratio 1 1000) r.
Definition seconds (r : Z) : duration := Duration (Ratio 1 1) r.
Definition minutes (r : Z) : duration := Duration (Ratio 60 1) r.
Definition hours (r : Z) : duration := Duration (Ratio 3600 1) r.

(** The double that [sleep_for] converts to [int]:
    [double(aTime.count()) * (unit * _Period::_as_double()) + 0.5]. *)
Definition sleep_for_double (unit : float) (aTime : duration) : float :=
  PrimFloat.add
    (PrimFloat.mul (double_of_long_long (count aTime))
                   (PrimFloat.mul unit (_as_double (period aTime))))
    0.5%float.

(** [this_thread::sleep_for(aTime)]: the [int] handed to [Sleep], in
    milliseconds, or to [usleep], in microseconds. *)
Definition sleep_for (p : platform) (aTime : duration) : option Z :=
  match p with
  | _TTHREAD_WIN32_ => int_of_double (sleep_for_double 1000.0%float aTime)
  | _TTHREAD_POSIX_ => int_of_double (sleep_for_double 1000000.0%float aTime)
  end.

(** ** The atomic flag of the specification

    The flag as the specification words it: a boolean cell;
    [test_and_set] sets it and returns the value held before, [clear]
    clears it.  The backends of [AtomicFlag] are compared with it. *)

Definition spec_test_and_set (flag : bool) : bool * bool := (flag, true).

Definition spec_clear (flag : bool) : unit * bool := (tt, false).

(** A call on a flag: the calling thread, for [test_and_set] the number of
    reservations its store-conditional loses, and the memory order. *)
Inductive flag_call :=
| call_test_and_set (t : tid) (lost : nat) (order : memory_order)
| call_clear (t : tid) (order : memory_order).

(** A sequence of calls on a flag of the header, with the values that its
    [test_and_set] calls return. *)
Fixpoint run_calls (cfg : atomics) (fuel : nat) (cs : list flag_call)
  : M AtomicFlag.atomic_flag (list bool) :=
  match cs with
  | [] => ret []
  | call_test_and_set t lost order :: cs' =>
      b <- AtomicFlag.test_and_set cfg lost fuel t order ;;
      bs <- run_calls cfg fuel cs' ;;
      ret (b :: bs)
  | call_clear t order :: cs' =>
      _ <- AtomicFlag.clear cfg fuel t order ;;
      run_calls cfg fuel cs'
  end.

(** The same sequence on the flag of the specification. *)
Fixpoint spec_run_calls (cs : list flag_call) (flag : bool)
  : list bool * bool :=
  match cs with
  | [] => ([], flag)
  | call_test_and_set _ _ _ :: cs' =>
      let '(b, flag1) := spec_test_and_set flag in
      let '(bs, flag2) := spec_run_calls cs' flag1 in
      (b :: bs, flag2)
  | call_clear _ _ :: cs' =>
      let '(_, flag1) := spec_clear flag in
      spec_run_calls cs' flag1
  end.

(** ** Calls in a row

    [try_lock()] called by each thread of a list in turn, with nothing else
    done to the mutex in between. *)
Fixpoint try_lock_each (callers : list tid) (m : mutex) : list bool * mutex :=
  match callers with
  | [] => ([], m)
  | b :: callers' =>
      let '(r, m1) := mutex_try_lock b m in
      let '(rs, m2) := try_lock_each callers' m1 in
      (r :: rs, m2)
  end.

(** The life of a guard with nothing in its scope: construction, then
    destruction. *)
Definition lock_guard_lifetime {S T : Type} `{Lockable T}
    (fuel : nat) (t : tid) (aMutex : ref S T) : M S unit :=
  guard <- lock_guard_ctor fuel t aMutex ;;
  lock_guard_dtor t guard.

(** ** Threads that run together

    To state what several threads do to one object, a call is cut into the
    steps between which another thread may run: one step per access to
    shared memory or call of a native primitive.  A thread is at a program
    point; a step takes the shared object and gives the next program point
    and the object as the step leaves it.  A thread that waits inside a
    native primitive has no step. *)

(** The program points of [mutex::lock()]. *)
Inductive lock_pc :=
| lock_enter     (* EnterCriticalSection(&mHandle); pthread_mutex_lock(&mHandle); *)
| lock_while     (* while(mAlreadyLocked) Sleep(1000); *)
| lock_set       (* mAlreadyLocked = true; *)
| lock_return.

Definition lock_step (t : tid) (pc : lock_pc) (m : mutex)
  : option (lock_pc * mutex) :=
  match pc, m with
  | lock_enter, mutex_win32 mHandle mAlreadyLocked =>
      match Win32.EnterCriticalSection t mHandle with
      | Some mHandle' => Some (lock_while, mutex_win32 mHandle' mAlreadyLocked)
      | None => None
      end
  | lock_enter, mutex_posix mHandle =>
      match Posix.pthread_mutex_lock t mHandle with
      | Some mHandle' => Some (lock_return, mutex_posix mHandle')
      | None => None
      end
  | lock_while, mutex_win32 mHandle mAlreadyLocked =>
      if mAlreadyLocked
      then Some (lock_while, m)           (* Sleep(1000); *)
      else Some (lock_set, m)
  | lock_set, mutex_win32 mHandle _ =>
      Some (lock_return, mutex_win32 mHandle true)
  | _, _ => None
  end.

(** The program points of [mutex::unlock()]. *)
Inductive unlock_pc :=
| unlock_start   (* mAlreadyLocked = false; pthread_mutex_unlock(&mHandle); *)
| unlock_leave   (* LeaveCriticalSection(&mHandle); *)
| unlock_return.

Definition unlock_step (t : tid) (pc : unlock_pc) (m : mutex)
  : option (unlock_pc * mutex) :=
  match pc, m with
  | unlock_start, mutex_win32 mHandle _ =>
      Some (unlock_leave, mutex_win32 mHandle false)
  | unlock_start, mutex_posix mHandle =>
      Some (unlock_return, mutex_posix (Posix.pthread_mutex_unlock t mHandle))
  | unlock_leave, mutex_win32 mHandle mAlreadyLocked =>
      Some (unlock_return,
            mutex_win32 (Win32.LeaveCriticalSection t mHandle) mAlreadyLocked)
  | _, _ => None
  end.

(** The program points of [atomic<T>::fetch_add(arg)], with the local
    variables that are live at each. *)
Inductive fetch_add_pc :=
| fa_builtin                               (* return __sync_fetch_and_add(&mValue, arg); *)
| fa_guard_ctor (pc : lock_pc)             (* lock_guard<mutex> guard(mLock); *)
| fa_result                                (* T result = mValue; *)
| fa_add_load (result : Z)                 (* mValue += arg;  the load *)
| fa_add_store (result : Z) (sum : Z)      (* mValue += arg;  the store *)
| fa_guard_dtor (result : Z) (pc : unlock_pc)  (* ~lock_guard() *)
| fa_return (result : Z).                  (* return result; *)

(** Where a call of [fetch_add] starts. *)
Definition fetch_add_start (cfg : atomics) : fetch_add_pc :=
  match cfg with
  | HAS_ATOMIC_BUILTINS => fa_builtin
  | _ => fa_guard_ctor lock_enter
  end.

Definition fetch_add_step (T : int_type) (arg : Z) (t : tid)
    (pc : fetch_add_pc) (this : Atomic.atomic)
  : option (fetch_add_pc * Atomic.atomic) :=
  match pc with
  | fa_builtin =>
      let '(r, mem) := Builtins.__sync_fetch_and_add T (Atomic.mValue this) arg in
      Some (fa_return r, Atomic.set_mValue mem this)
  | fa_guard_ctor lock_return => Some (fa_result, this)
  | fa_guard_ctor pc =>
      match lock_step t pc (Atomic.mLock this) with
      | Some (pc', m) => Some (fa_guard_ctor pc', assign Atomic.mLock_ref m this)
      | None => None
      end
  | fa_result => Some (fa_add_load (Atomic.mValue this), this)
  | fa_add_load result =>
      Some (fa_add_store result (convert T (Atomic.mValue this + arg)), this)
  | fa_add_store result sum =>
      Some (fa_guard_dtor result unlock_start, Atomic.set_mValue sum this)
  | fa_guard_dtor result unlock_return => Some (fa_return result, this)
  | fa_guard_dtor result pc =>
      match unlock_step t pc (Atomic.mLock this) with
      | Some (pc', m) =>
          Some (fa_guard_dtor result pc', assign Atomic.mLock_ref m this)
      | None => None
      end
  | fa_return _ => None
  end.

(** Threads [0], [1], ... each in a call of [fetch_add(arg)] on one cell. *)
Record system := System {
  cell : Atomic.atomic;
  threads : list fetch_add_pc
}.

(** One step of the system: some thread takes its next step.  Which one is
    not determined: every interleaving is a sequence of such steps. *)
Inductive system_step (T : int_type) (arg : Z) : system -> system -> Prop :=
| thread_step (t : tid) (pc pc' : fetch_add_pc) (this' : Atomic.atomic)
    (s : system) :
    threads s !! t = Some pc ->
    fetch_add_step T arg t pc (cell s) = Some (pc', this') ->
    system_step T arg s (System this' (<[t := pc']> (threads s))).

(** [n] threads about to call [fetch_add] on a cell that holds [v]. *)
Definition system_init (cfg : atomics) (p : platform) (v : Z) (n : nat)
  : system :=
  System (Atomic.ctor_T p v) (replicate n (fetch_add_start cfg)).

Definition returned (pc : fetch_add_pc) : bool :=
  match pc with
  | fa_return _ => true
  | _ => false
  end.

(** Every thread has returned from its call. *)
Definition all_returned (s : system) : Prop :=
  Forall (fun pc => returned pc = true) (threads s).

(** A thread alone with a mutex, in a call of [lock()]. *)
Definition lock_steps (t : tid) : relation (lock_pc * mutex) :=
  fun a b => lock_step t (fst a) (snd a) = Some b.

(** A thread alone with a cell, in a call of [fetch_add(arg)]. *)
Definition fetch_add_steps (T : int_type) (arg : Z) (t : tid)
  : relation (fetch_add_pc * Atomic.atomic) :=
  fun a b => fetch_add_step T arg t (fst a) (snd a) = Some b.

(** ** What holds at every step of the threads

    The vocabulary of the invariant of a system of threads in
    [fetch_add]. *)

(** The thread is between the native acquisition of the mutex and its
    release. *)
Definition holding (pc : fetch_add_pc) : bool :=
  match pc with
  | fa_guard_ctor lock_enter => false
  | fa_guard_ctor _ => true
  | fa_result | fa_add_load _ | fa_add_store _ _ => true
  | fa_guard_dtor _ unlock_return => false
  | fa_guard_dtor _ _ => true
  | fa_builtin | fa_return _ => false
  end.

(** The thread has stored its sum. *)
Definition stored (pc : fetch_add_pc) : bool :=
  match pc with
  | fa_guard_dtor _ _ | fa_return _ => true
  | _ => false
  end.

Fixpoint count_stored (l : list fetch_add_pc) : Z :=
  match l with
  | [] => 0
  | pc :: l' => (if stored pc then 1 else 0) + count_stored l'
  end.

(** The mutex of the cell while thread [t] is at the program point [pc]
    with the mutex acquired. *)
Definition mutex_at (p : platform) (t : tid) (pc : fetch_add_pc)
  : option mutex :=
  match p with
  | _TTHREAD_WIN32_ =>
      let mHandle := {| Win32.OwningThread := Some t;
                        Win32.RecursionCount := 1 |} in
      match pc with
      | fa_guard_ctor lock_while | fa_guard_ctor lock_set
      | fa_guard_dtor _ unlock_leave =>
          Some (mutex_win32 mHandle false)
      | fa_guard_ctor lock_return | fa_result | fa_add_load _
      | fa_add_store _ _ | fa_guard_dtor _ unlock_start =>
          Some (mutex_win32 mHandle true)
      | _ => None
      end
  | _TTHREAD_POSIX_ =>
      match pc with
      | fa_guard_ctor lock_return | fa_result | fa_add_load _
      | fa_add_store _ _ | fa_guard_dtor _ unlock_start =>
          Some (mutex_posix {| Posix.owner := Some t |})
      | _ => None
      end
  end.

(** The sum a thread is about to store is the one of the current value. *)
Definition locals_ok (T : int_type) (arg : Z) (this : Atomic.atomic)
    (pc : fetch_add_pc) : Prop :=
  match pc with
  | fa_add_store _ sum => sum = convert T (Atomic.mValue this + arg)
  | _ => True
  end.

(** The program points of the backend in use. *)
Definition pc_ok (cfg : atomics) (pc : fetch_add_pc) : bool :=
  match cfg, pc with
  | HAS_ATOMIC_BUILTINS, (fa_builtin | fa_return _) => true
  | HAS_ATOMIC_BUILTINS, _ => false
  | _, fa_builtin => false
  | _, _ => true
  end.

Record invariant (T : int_type) (arg : Z) (cfg : atomics) (p : platform)
    (v : Z) (s : system) : Prop := {
  inv_value :
    Atomic.mValue (cell s) = convert T (v + arg * count_stored (threads s));
  inv_pcs :
    forall t pc, threads s !! t = Some pc -> pc_ok cfg pc = true;
  inv_mutex :
    (Atomic.mLock (cell s) = mutex_ctor p
     /\ forall t pc, threads s !! t = Some pc -> holding pc = false)
    \/ (exists t pc,
          threads s !! t = Some pc
          /\ holding pc = true
          /\ mutex_at p t pc = Some (Atomic.mLock (cell s))
          /\ locals_ok T arg (cell s) pc
          /\ forall t' pc', t' <> t -> threads s !! t' = Some pc' ->
                            holding pc' = false)
}.

(** Steps left to a thread before it returns. *)
Definition steps_left (pc : fetch_add_pc) : nat :=
  match pc with
  | fa_builtin => 1
  | fa_guard_ctor lock_enter => 10
  | fa_guard_ctor lock_while => 9
  | fa_guard_ctor lock_set => 8
  | fa_guard_ctor lock_return => 7
  | fa_result => 6
  | fa_add_load _ => 5
  | fa_add_store _ _ => 4
  | fa_guard_dtor _ unlock_start => 3
  | fa_guard_dtor _ unlock_leave => 2
  | fa_guard_dtor _ unlock_return => 1
  | fa_return _ => 0
  end.

Definition total_steps_left (s : system) : nat :=
  sum_list (steps_left <$> threads s).

(** ** class lock_guard: copies

    [lock_guard] is the one class of the header without
    [_TTHREAD_DISABLE_ASSIGNMENT], so the compiler gives it a copy
    constructor and a copy assignment; both copy the member [mMutex]. *)

(** [lock_guard(const lock_guard&)], as the compiler generates it. *)
Definition lock_guard_copy_ctor {S T : Type} (other : lock_guard S T)
  : lock_guard S T :=
  {| mMutex := mMutex other |}.

(** [lock_guard& operator=(const lock_guard&)], as the compiler generates
    it: the object after the assignment. *)
Definition lock_guard_operator_assign {S T : Type}
    (this other : lock_guard S T) : lock_guard S T :=
  {| mMutex := mMutex other |}.

(** [{ lock_guard<T> g(m); lock_guard<T> d; d = g; }]: the objects are
    destroyed in the reverse order of their construction. *)
Definition guard_assigned_to_default {S T : Type} `{Lockable T}
    (fuel : nat) (t : tid) (aMutex : ref S T) : M S unit :=
  g <- lock_guard_ctor fuel t aMutex ;;
  d <- ret lock_guard_default ;;
  d <- ret (lock_guard_operator_assign d g) ;;
  _ <- lock_guard_dtor t d ;;
  lock_guard_dtor t g.

(** [{ lock_guard<T> g(m); lock_guard<T> d; g = d; }] *)
Definition guard_assigned_from_default {S T : Type} `{Lockable T}
    (fuel : nat) (t : tid) (aMutex : ref S T) : M S unit :=
  g <- lock_guard_ctor fuel t aMutex ;;
  d <- ret lock_guard_default ;;
  g <- ret (lock_guard_operator_assign g d) ;;
  _ <- lock_guard_dtor t d ;;
  lock_guard_dtor t g.

(** [{ lock_guard<T> g(m); lock_guard<T> c(g); }] *)
Definition guard_copy_constructed {S T : Type} `{Lockable T}
    (fuel : nat) (t : tid) (aMutex : ref S T) : M S unit :=
  g <- lock_guard_ctor fuel t aMutex ;;
  c <- ret (lock_guard_copy_ctor g) ;;
  _ <- lock_guard_dtor t c ;;
  lock_guard_dtor t g.

(** ** class recursive_mutex *)

(** A pthread mutex of type [PTHREAD_MUTEX_RECURSIVE]: its owner may lock
    it again, and it is free again once it has been unlocked as often. *)
Module PosixRecursive.

Record pthread_mutex_t := { owner : option tid; lock_count : nat }.

(** [pthread_mutex_init(&mHandle, &attr)] with the recursive type set. *)
Definition pthread_mutex_init : pthread_mutex_t :=
  {| owner := None; lock_count := 0 |}.

Definition pthread_mutex_trylock (t : tid) (m : pthread_mutex_t)
  : Z * pthread_mutex_t :=
  match owner m with
  | None => (0, {| owner := Some t; lock_count := 1 |})
  | Some o =>
      if Nat.eqb o t
      then (0, {| owner := Some t; lock_count := S (lock_count m) |})
      else (Posix.EBUSY, m)
  end.

(** [None]: the caller is still waiting. *)
Definition pthread_mutex_lock (t : tid) (m : pthread_mutex_t)
  : option pthread_mutex_t :=
  match pthread_mutex_trylock t m with
  | (0, m') => Some m'
  | _ => None
  end.

(** A thread that does not own the mutex gets an error and changes
    nothing. *)
Definition pthread_mutex_unlock (t : tid) (m : pthread_mutex_t)
  : pthread_mutex_t :=
  match owner m with
  | Some o =>
      if Nat.eqb o t
      then match lock_count m with
           | S (S n) => {| owner := Some t; lock_count := S n |}
           | _ => {| owner := None; lock_count := 0 |}
           end
      else m
  | None => m
  end.

End PosixRecursive.

(** The member [mHandle] of [class recursive_mutex], on each platform. *)
Inductive recursive_mutex :=
| recursive_mutex_win32 (mHandle : Win32.CRITICAL_SECTION)
| recursive_mutex_posix (mHandle : PosixRecursive.pthread_mutex_t).

(** [recursive_mutex::recursive_mutex()] *)
Definition recursive_mutex_ctor (p : platform) : recursive_mutex :=
  match p with
  | _TTHREAD_WIN32_ => recursive_mutex_win32 Win32.InitializeCriticalSection
  | _TTHREAD_POSIX_ =>
      recursive_mutex_posix PosixRecursive.pthread_mutex_init
  end.

(** [recursive_mutex::lock()] *)
Definition recursive_mutex_lock (t : tid) (m : recursive_mutex)
  : option recursive_mutex :=
  match m with
  | recursive_mutex_win32 mHandle =>
      match Win32.EnterCriticalSection t mHandle with
      | Some mHandle' => Some (recursive_mutex_win32 mHandle')
      | None => None
      end
  | recursive_mutex_posix mHandle =>
      match PosixRecursive.pthread_mutex_lock t mHandle with
      | Some mHandle' => Some (recursive_mutex_posix mHandle')
      | None => None
      end
  end.

(** [recursive_mutex::try_lock()] *)
Definition recursive_mutex_try_lock (t : tid) (m : recursive_mutex)
  : bool * recursive_mutex :=
  match m with
  | recursive_mutex_win32 mHandle =>
      let '(entered, mHandle') := Win32.TryEnterCriticalSection t mHandle in
      (if entered then true else false, recursive_mutex_win32 mHandle')
  | recursive_mutex_posix mHandle =>
      let '(rc, mHandle') := PosixRecursive.pthread_mutex_trylock t mHandle in
      (if Z.eqb rc 0 then true else false, recursive_mutex_posix mHandle')
  end.

(** [recursive_mutex::unlock()] *)
Definition recursive_mutex_unlock (t : tid) (m : recursive_mutex)
  : recursive_mutex :=
  match m with
  | recursive_mutex_win32 mHandle =>
      recursive_mutex_win32 (Win32.LeaveCriticalSection t mHandle)
  | recursive_mutex_posix mHandle =>
      recursive_mutex_posix (PosixRecursive.pthread_mutex_unlock t mHandle)
  end.

(** [lock_guard<recursive_mutex>]: the lock has no loop to give fuel to. *)
#[export] Instance recursive_mutex_Lockable : Lockable recursive_mutex :=
  {| lock := fun _ => recursive_mutex_lock; unlock := recursive_mutex_unlock |}.

(** [lock()] called [k] times in a row by one thread. *)
Fixpoint recursive_lock_times (k : nat) (t : tid) (m : recursive_mutex)
  : option recursive_mutex :=
  match k with
  | O => Some m
  | S k' =>
      match recursive_mutex_lock t m with
      | Some m' => recursive_lock_times k' t m'
      | None => None
      end
  end.

(** [unlock()] called [k] times in a row by one thread. *)
Fixpoint recursive_unlock_times (k : nat) (t : tid) (m : recursive_mutex)
  : recursive_mutex :=
  match k with
  | O => m
  | S k' => recursive_unlock_times k' t (recursive_mutex_unlock t m)
  end.

(** ** class mutex: states the methods produce *)

(** The native handle is consistent: it has an owner exactly when it has
    been entered. *)
Definition mutex_wf (m : mutex) : Prop :=
  match m with
  | mutex_win32 mHandle _ =>
      match Win32.OwningThread mHandle, Win32.RecursionCount mHandle with
      | None, O | Some _, S _ => True
      | _, _ => False
      end
  | mutex_posix _ => True
  end.

(** Two guards on one mutex, one inside the scope of the other:
    [{ lock_guard<T> outer(m); { lock_guard<T> inner(m); } }]. *)
Definition nested_guards {S T : Type} `{Lockable T}
    (fuel : nat) (t : tid) (aMutex : ref S T) : M S unit :=
  outer <- lock_guard_ctor fuel t aMutex ;;
  inner <- lock_guard_ctor fuel t aMutex ;;
  _ <- lock_guard_dtor t inner ;;
  lock_guard_dtor t outer.

(** ** Calls in a row on an atomic cell *)

(** A call of a method of [atomic<T>] by a thread. *)
Inductive atomic_call :=
| call_store (t : tid) (desired : Z) (order : memory_order)
| call_load (t : tid) (order : memory_order)
| call_fetch_add (t : tid) (arg : Z) (order : memory_order)
| call_fetch_sub (t : tid) (arg : Z) (order : memory_order)
| call_operator_assign (t : tid) (desired : Z)
| call_operator_T (t : tid)
| call_operator_inc (t : tid)
| call_operator_inc_int (t : tid)
| call_operator_dec (t : tid)
| call_operator_dec_int (t : tid).

(** The call made, with the value it returns ([None] for [void]). *)
Definition run_atomic_call (T : int_type) (cfg : atomics) (fuel : nat)
    (c : atomic_call) : M Atomic.atomic (option Z) :=
  match c with
  | call_store t desired order =>
      _ <- Atomic.store T cfg fuel t desired order ;; ret None
  | call_load t order =>
      r <- Atomic.load T cfg fuel t order ;; ret (Some r)
  | call_fetch_add t arg order =>
      r <- Atomic.fetch_add T cfg fuel t arg order ;; ret (Some r)
  | call_fetch_sub t arg order =>
      r <- Atomic.fetch_sub T cfg fuel t arg order ;; ret (Some r)
  | call_operator_assign t desired =>
      r <- Atomic.operator_assign T cfg fuel t desired ;; ret (Some r)
  | call_operator_T t =>
      r <- Atomic.operator_T T cfg fuel t ;; ret (Some r)
  | call_operator_inc t =>
      r <- Atomic.operator_inc T cfg fuel t ;; ret (Some r)
  | call_operator_inc_int t =>
      r <- Atomic.operator_inc_int T cfg fuel t ;; ret (Some r)
  | call_operator_dec t =>
      r <- Atomic.operator_dec T cfg fuel t ;; ret (Some r)
  | call_operator_dec_int t =>
      r <- Atomic.operator_dec_int T cfg fuel t ;; ret (Some r)
  end.

Fixpoint run_atomic_calls (T : int_type) (cfg : atomics) (fuel : nat)
    (cs : list atomic_call) : M Atomic.atomic (list (option Z)) :=
  match cs with
  | [] => ret []
  | c :: cs' =>
      r <- run_atomic_call T cfg fuel c ;;
      rs <- run_atomic_calls T cfg fuel cs' ;;
      ret (r :: rs)
  end.

(** The values a caller passes for a parameter of type [T] are values of
    [T]. *)
Definition atomic_call_typed (T : int_type) (c : atomic_call) : Prop :=
  match c with
  | call_store _ desired _ | call_operator_assign _ desired =>
      in_range T desired
  | _ => True
  end.

(** What a call returns and leaves in the cell, as a function of the value
    in the cell: the yardstick against which the backends are compared. *)
Definition value_of_call (T : int_type) (c : atomic_call) (v : Z)
  : option Z * Z :=
  match c with
  | call_store _ desired _ => (None, desired)
  | call_load _ _ | call_operator_T _ => (Some v, v)
  | call_fetch_add _ arg _ => (Some v, convert T (v + arg))
  | call_fetch_sub _ arg _ => (Some v, convert T (v - arg))
  | call_operator_assign _ desired => (Some desired, desired)
  | call_operator_inc _ => (Some (convert T (v + 1)), convert T (v + 1))
  | call_operator_inc_int _ => (Some v, convert T (v + 1))
  | call_operator_dec _ => (Some (convert T (v - 1)), convert T (v - 1))
  | call_operator_dec_int _ => (Some v, convert T (v - 1))
  end.

Fixpoint value_of_calls (T : int_type) (cs : list atomic_call) (v : Z)
  : list (option Z) * Z :=
  match cs with
  | [] => ([], v)
  | c :: cs' =>
      let '(r, v1) := value_of_call T c v in
      let '(rs, v2) := value_of_calls T cs' v1 in
      (r :: rs, v2)
  end.

(** A call of [test_and_set] for each thread, number of lost reservations
    and memory order of a list. *)
Definition test_and_set_calls (l : list (tid * nat * memory_order))
  : list flag_call :=
  map (fun '(t, lost, order) => call_test_and_set t lost order) l.

(** ** What the threads in [fetch_add] are handed *)

(** The value a thread will return, once its sum is stored. *)
Definition result_of (pc : fetch_add_pc) : option Z :=
  match pc with
  | fa_guard_dtor result _ | fa_return result => Some result
  | _ => None
  end.

Definition stored_results (l : list fetch_add_pc) : list Z :=
  omap result_of l.

(** The values the cell goes through when [arg] is added [k] times to [v]:
    [v], [v + arg], ..., [v + (k - 1) * arg], in the arithmetic of [T]. *)
Definition tickets (T : int_type) (arg v : Z) (k : nat) : list Z :=
  map (fun j => convert T (v + arg * Z.of_nat j)) (seq 0 k).

(** The local [result] of a thread that has read it is the value in the
    cell. *)
Definition result_ok (this : Atomic.atomic) (pc : fetch_add_pc) : Prop :=
  match pc with
  | fa_add_load result | fa_add_store result _ => result = Atomic.mValue this
  | _ => True
  end.

Record results_invariant (T : int_type) (arg v : Z) (s : system) : Prop := {
  inv_results :
    Permutation (stored_results (threads s))
                (tickets T arg v (length (stored_results (threads s))));
  inv_result_ok :
    forall t pc, threads s !! t = Some pc -> result_ok (cell s) pc
}.

(** ** class thread::id *)

Module ThreadId.

(** The member [unsigned long int mId]. *)
Record id := { mId : Z }.

(** [id() : mId(0)] *)
Definition ctor : id := {| mId := 0 |}.

(** [id(unsigned long int aId) : mId(aId)] *)
Definition ctor_ulong (aId : Z) : id := {| mId := aId |}.

(** [id(const id& aId) : mId(aId.mId)] *)
Definition ctor_copy (aId : id) : id := {| mId := mId aId |}.

(** [id & operator=(const id &aId)]: the object after the assignment. *)
Definition operator_assign (this aId : id) : id := {| mId := mId aId |}.

(** [operator==], [operator!=], [operator<=], [operator<], [operator>=],
    [operator>] *)
Definition operator_eq (aId1 aId2 : id) : bool := Z.eqb (mId aId1) (mId aId2).
Definition operator_ne (aId1 aId2 : id) : bool :=
  negb (Z.eqb (mId aId1) (mId aId2)).
Definition operator_le (aId1 aId2 : id) : bool := Z.leb (mId aId1) (mId aId2).
Definition operator_lt (aId1 aId2 : id) : bool := Z.ltb (mId aId1) (mId aId2).
Definition operator_ge (aId1 aId2 : id) : bool := Z.geb (mId aId1) (mId aId2).
Definition operator_gt (aId1 aId2 : id) : bool := Z.gtb (mId aId1) (mId aId2).

End ThreadId.

(** ** this_thread::sleep_for over a range of counts *)

(** [sleep_for] hands the native call [scale * c] for the duration
    [unit c]. *)
Definition sleep_for_scales (p : platform) (unit : Z -> duration)
    (scale c : Z) : bool :=
  match sleep_for p (unit c) with
  | Some z => Z.eqb z (scale * c)
  | None => false
  end.

(** The same for the [n] counts from [c] on. *)
Fixpoint sleep_for_scales_from (p : platform) (unit : Z -> duration)
    (scale c : Z) (n : nat) : bool :=
  match n with
  | O => true
  | S n' =>
      sleep_for_scales p unit scale c
      && sleep_for_scales_from p unit scale (c + 1) n'
  end.

(** ** class condition_variable, on Win32 *)

Definition unsigned_int : int_type := {| bits := 32; is_signed := false |}.

Module ConditionVariable.

(** The members on Win32: the two event handles, the number of waiters and
    the critical section that guards it. *)
Record condition_variable := {
  mEvents : Z * Z;
  mWaitersCount : Z;
  mWaitersCountLock : Win32.CRITICAL_SECTION
}.

(** [template <class _mutexT> void wait(_mutexT &aMutex)], the Win32
    branch.  The object is the condition variable together with the mutex
    passed by reference.  [_wait()] is declared in the header and defined
    elsewhere: it is the parameter [_wait], which may do to the condition
    variable and, through the other threads that run meanwhile, to the
    mutex whatever it does. *)
Definition wait {T : Type} `{Lockable T}
    (_wait : M (condition_variable * T) unit) (fuel : nat) (t : tid)
  : M (condition_variable * T) unit :=
  fun '(this, aMutex) =>
    (* EnterCriticalSection(&mWaitersCountLock); *)
    match Win32.EnterCriticalSection t (mWaitersCountLock this) with
    | None => None
    | Some entered =>
        (* ++ mWaitersCount; *)
        let count := convert unsigned_int (mWaitersCount this + 1) in
        (* LeaveCriticalSection(&mWaitersCountLock); *)
        let this1 :=
          {| mEvents := mEvents this;
             mWaitersCount := count;
             mWaitersCountLock := Win32.LeaveCriticalSection t entered |} in
        (* aMutex.unlock(); *)
        let aMutex1 := unlock t aMutex in
        (* _wait(); *)
        match _wait (this1, aMutex1) with
        | None => None
        | Some (_, (this2, aMutex2)) =>
            (* aMutex.lock(); *)
            match lock fuel t aMutex2 with
            | Some aMutex3 => Some (tt, (this2, aMutex3))
            | None => None
            end
        end
    end.

(** The condition variable with one waiter more. *)
Definition one_more_waiter (this : condition_variable) : condition_variable :=
  {| mEvents := mEvents this;
     mWaitersCount := convert unsigned_int (mWaitersCount this + 1);
     mWaitersCountLock := mWaitersCountLock this |}.

End ConditionVariable.

(** * Properties *)

(** ** Integer conversion *)

Lemma T_range_nonempty (T : int_type) : T_min T <= 0 <= T_max T.
Proof.
  unfold T_min, T_max. destruct (is_signed T).
  - assert (0 < 2 ^ (Z.pos (bits T) - 1)) by (apply Z.pow_pos_nonneg; lia). lia.
  - assert (0 < 2 ^ Z.pos (bits T)) by (apply Z.pow_pos_nonneg; lia). lia.
Qed.

Lemma pow2_bits_split (T : int_type) :
  2 ^ Z.pos (bits T) = 2 * 2 ^ (Z.pos (bits T) - 1).
Proof.
  rewrite <- Z.pow_succ_r by lia. f_equal. lia.
Qed.

Lemma convert_in_range (T : int_type) (z : Z) :
  in_range T z -> convert T z = z.
Proof.
  unfold in_range, T_min, T_max, convert. intros Hz.
  pose proof (pow2_bits_split T) as Hsplit.
  destruct (is_signed T).
  - rewrite Z.mod_small by lia. lia.
  - apply Z.mod_small. lia.
Qed.

Lemma convert_range (T : int_type) (z : Z) : in_range T (convert T z).
Proof.
  unfold in_range, T_min, T_max, convert.
  pose proof (pow2_bits_split T) as Hsplit.
  assert (0 < 2 ^ Z.pos (bits T)) as Hpos by (apply Z.pow_pos_nonneg; lia).
  destruct (is_signed T).
  - pose proof (Z.mod_pos_bound (z + 2 ^ (Z.pos (bits T) - 1)) _ Hpos). lia.
  - pose proof (Z.mod_pos_bound z _ Hpos). lia.
Qed.

(** Conversion is a homomorphism for addition: converting an intermediate
    result does not change the converted sum. *)
Lemma convert_add_l (T : int_type) (x y : Z) :
  convert T (convert T x + y) = convert T (x + y).
Proof.
  unfold convert. destruct (is_signed T).
  - f_equal.
    replace ((x + 2 ^ (Z.pos (bits T) - 1)) mod 2 ^ Z.pos (bits T)
             - 2 ^ (Z.pos (bits T) - 1) + y + 2 ^ (Z.pos (bits T) - 1))
      with ((x + 2 ^ (Z.pos (bits T) - 1)) mod 2 ^ Z.pos (bits T) + y) by lia.
    rewrite Zplus_mod_idemp_l. f_equal. lia.
  - apply Zplus_mod_idemp_l.
Qed.

(** ** class mutex *)

Lemma mutex_lock_ctor (p : platform) (fuel : nat) (t : tid) :
  exists m, mutex_lock fuel t (mutex_ctor p) = Some m
            /\ held_by t m /\ mutex_unlock t m = mutex_ctor p.
Proof.
  destruct p; cbn; destruct fuel; cbn; eexists; (split; [reflexivity|]);
    unfold held_by; cbn; rewrite Nat.eqb_refl; auto.
Qed.

Lemma mutex_lock_unlocked (fuel : nat) (t : tid) (m : mutex) :
  unlocked m ->
  exists m', mutex_lock fuel t m = Some m' /\ mutex_unlock t m' = m.
Proof.
  intros [p ->]. destruct (mutex_lock_ctor p fuel t) as (m' & Hl & _ & Hu).
  eauto.
Qed.

(** A guard on the mutex of an object: what its scope does to the object. *)
Lemma guard_scope {S : Type} (r : ref S mutex) (fuel : nat) (t : tid) (s : S) :
  unlocked (deref r s) ->
  exists m, lock_guard_ctor fuel t r s
              = Some ({| mMutex := Some r |}, assign r m s)
            /\ mutex_unlock t m = deref r s.
Proof.
  intros Hu. destruct (mutex_lock_unlocked fuel t _ Hu) as (m & Hl & Hul).
  exists m. split; [|exact Hul].
  unfold lock_guard_ctor. cbn. rewrite Hl. reflexivity.
Qed.

(** ** struct atomic *)

Import Atomic.

(** The methods that take the guard: they return the object with its mutex
    as they found it. *)
Ltac guarded_method this Hu :=
  let m := fresh "m" in
  let Hul := fresh "Hul" in
  unfold bind;
  match goal with
  | |- context [lock_guard_ctor ?fuel ?t ?r] =>
      destruct (guard_scope r fuel t this Hu) as (m & -> & Hul)
  end;
  destruct this; unfold lock_guard_dtor, modify, gets, ret; cbn in *;
  rewrite Hul; reflexivity.

(** C1. On the mutex-guarded path, [fetch_add(a, order)] on a cell that holds
    [v] returns [v] and leaves the cell holding [v + a], and
    [fetch_sub(a, order)] returns [v] and leaves the cell holding [v - a],
    whatever the memory order; the mutex of the cell is as it was.  The sum
    and the difference are those of the type [T], and they are the exact
    ones when these are in the range of [T]. *)
Theorem fetch_add_sub_fallback (T : int_type) (cfg : atomics)
    (fuel : nat) (t : tid) (a : Z) (order : memory_order) (this : atomic) :
  is_lock_free cfg = false ->
  unlocked (mLock this) ->
  (exists this',
      fetch_add T cfg fuel t a order this = Some (mValue this, this')
      /\ mValue this' = convert T (mValue this + a)
      /\ mLock this' = mLock this
      /\ (in_range T (mValue this + a) -> mValue this' = mValue this + a))
  /\ (exists this',
      fetch_sub T cfg fuel t a order this = Some (mValue this, this')
      /\ mValue this' = convert T (mValue this - a)
      /\ mLock this' = mLock this
      /\ (in_range T (mValue this - a) -> mValue this' = mValue this - a)).
Proof.
  intros Hcfg Hu. split.
  - exists (set_mValue (convert T (mValue this + a)) this).
    split; [|split; [reflexivity|split; [reflexivity|]]].
    + unfold fetch_add.
      destruct cfg; [discriminate| |]; guarded_method this Hu.
    + intros Hr. cbn. apply convert_in_range, Hr.
  - exists (set_mValue (convert T (mValue this - a)) this).
    split; [|split; [reflexivity|split; [reflexivity|]]].
    + unfold fetch_sub.
      destruct cfg; [discriminate| |]; guarded_method this Hu.
    + intros Hr. cbn. apply convert_in_range, Hr.
Qed.

Lemma fetch_add_sub_fallback_witness :
  let this := Atomic.ctor_T _TTHREAD_WIN32_ 41 in
  (exists this',
      fetch_add int NO_ATOMICS 0 7%nat 1 memory_order_relaxed this
      = Some (mValue this, this')
      /\ mValue this' = convert int (mValue this + 1)
      /\ mLock this' = mLock this
      /\ (in_range int (mValue this + 1) -> mValue this' = mValue this + 1))
  /\ (exists this',
      fetch_sub int NO_ATOMICS 0 7%nat 1 memory_order_relaxed this
      = Some (mValue this, this')
      /\ mValue this' = convert int (mValue this - 1)
      /\ mLock this' = mLock this
      /\ (in_range int (mValue this - 1) -> mValue this' = mValue this - 1)).
Proof.
  apply (fetch_add_sub_fallback int NO_ATOMICS 0 7%nat 1 memory_order_relaxed
           (Atomic.ctor_T _TTHREAD_WIN32_ 41)).
  - reflexivity.
  - exists _TTHREAD_WIN32_. reflexivity.
Defined.

(** The cell after [fetch_add(1)] on 41 and on the largest [unsigned char]. *)
Example fetch_add_cell_after :
  fetch_add int NO_ATOMICS 0 7%nat 1 memory_order_relaxed
    (Atomic.ctor_T _TTHREAD_WIN32_ 41)
  = Some (41, {| mLock := mutex_ctor _TTHREAD_WIN32_; mValue := 42 |})
  /\ fetch_add unsigned_char NO_ATOMICS 0 7%nat 1 memory_order_relaxed
       (Atomic.ctor_T _TTHREAD_POSIX_ 255)
     = Some (255, {| mLock := mutex_ctor _TTHREAD_POSIX_; mValue := 0 |}).
Proof. split; reflexivity. Qed.

Ltac atomic_method cfg this Hu :=
  destruct cfg; [destruct this; reflexivity | |]; guarded_method this Hu.

Lemma store_spec (T : int_type) (cfg : atomics) (fuel : nat) (t : tid)
    (v : Z) (order : memory_order) (this : atomic) :
  unlocked (mLock this) ->
  store T cfg fuel t v order this = Some (tt, set_mValue v this).
Proof. intros Hu. unfold store. atomic_method cfg this Hu. Qed.

Lemma load_spec (T : int_type) (cfg : atomics) (fuel : nat) (t : tid)
    (order : memory_order) (this : atomic) :
  unlocked (mLock this) ->
  in_range T (mValue this) ->
  load T cfg fuel t order this = Some (mValue this, this).
Proof.
  intros Hu Hr. unfold load.
  destruct cfg; [|guarded_method this Hu..].
  destruct this as [m v]; cbn in *. unfold on_mValue, set_mValue; cbn.
  rewrite Z.add_0_r, convert_in_range by assumption. reflexivity.
Qed.

Lemma fetch_add_spec (T : int_type) (cfg : atomics) (fuel : nat) (t : tid)
    (a : Z) (order : memory_order) (this : atomic) :
  unlocked (mLock this) ->
  fetch_add T cfg fuel t a order this
  = Some (mValue this, set_mValue (convert T (mValue this + a)) this).
Proof. intros Hu. unfold fetch_add. atomic_method cfg this Hu. Qed.

Lemma fetch_sub_spec (T : int_type) (cfg : atomics) (fuel : nat) (t : tid)
    (a : Z) (order : memory_order) (this : atomic) :
  unlocked (mLock this) ->
  fetch_sub T cfg fuel t a order this
  = Some (mValue this, set_mValue (convert T (mValue this - a)) this).
Proof. intros Hu. unfold fetch_sub. atomic_method cfg this Hu. Qed.

(** C2. [store(v)] followed by [load()] returns [v], for every [v] in the
    range of [T], every backend and every pair of memory orders. *)
Theorem store_load_roundtrip (T : int_type) (cfg : atomics) (fuel : nat)
    (t : tid) (v : Z) (order1 order2 : memory_order) (this : atomic) :
  unlocked (mLock this) ->
  in_range T v ->
  (_ <- store T cfg fuel t v order1 ;; load T cfg fuel t order2) this
  = Some (v, set_mValue v this).
Proof.
  intros Hu Hv. unfold bind. rewrite store_spec by assumption.
  rewrite load_spec by assumption. reflexivity.
Qed.

Lemma store_load_roundtrip_witness :
  (_ <- store unsigned_char NO_ATOMICS 0 1%nat 200 memory_order_release ;;
   load unsigned_char NO_ATOMICS 0 1%nat memory_order_acquire)
    (Atomic.ctor _TTHREAD_POSIX_)
  = Some (200, set_mValue 200 (Atomic.ctor _TTHREAD_POSIX_)).
Proof.
  apply (store_load_roundtrip unsigned_char NO_ATOMICS 0 1%nat 200
           memory_order_release memory_order_acquire
           (Atomic.ctor _TTHREAD_POSIX_)).
  - exists _TTHREAD_POSIX_. reflexivity.
  - unfold in_range. vm_compute. split; discriminate.
Defined.

(** C3. On a cell that holds [v]: [++x] returns [v + 1] and [x++] returns
    [v]; [--x] returns [v - 1] and [x--] returns [v]; and the cell then holds
    [v + 1], respectively [v - 1], with its mutex as it was.  The sum and the
    difference are those of the type [T], the exact ones when these are in
    its range. *)
Theorem increment_decrement_operators (T : int_type) (cfg : atomics)
    (fuel : nat) (t : tid) (this : atomic) :
  unlocked (mLock this) ->
  let v := mValue this in
  (exists this',
      operator_inc T cfg fuel t this = Some (convert T (v + 1), this')
      /\ mValue this' = convert T (v + 1) /\ mLock this' = mLock this)
  /\ (exists this',
      operator_inc_int T cfg fuel t this = Some (v, this')
      /\ mValue this' = convert T (v + 1) /\ mLock this' = mLock this)
  /\ (exists this',
      operator_dec T cfg fuel t this = Some (convert T (v - 1), this')
      /\ mValue this' = convert T (v - 1) /\ mLock this' = mLock this)
  /\ (exists this',
      operator_dec_int T cfg fuel t this = Some (v, this')
      /\ mValue this' = convert T (v - 1) /\ mLock this' = mLock this)
  /\ (in_range T (v + 1) -> convert T (v + 1) = v + 1)
  /\ (in_range T (v - 1) -> convert T (v - 1) = v - 1).
Proof.
  intros Hu v. subst v.
  unfold operator_inc, operator_inc_int, operator_dec, operator_dec_int, bind.
  rewrite fetch_add_spec, fetch_sub_spec by assumption.
  split; [|split; [|split; [|split; [|split]]]];
    try (eexists; split; [reflexivity|split; reflexivity]);
    apply convert_in_range.
Qed.

Lemma increment_decrement_operators_witness :
  let this := Atomic.ctor_T _TTHREAD_WIN32_ 9 in
  let v := mValue this in
  (exists this',
      operator_inc int NO_ATOMICS 0 2%nat this
      = Some (convert int (v + 1), this')
      /\ mValue this' = convert int (v + 1) /\ mLock this' = mLock this)
  /\ (exists this',
      operator_inc_int int NO_ATOMICS 0 2%nat this = Some (v, this')
      /\ mValue this' = convert int (v + 1) /\ mLock this' = mLock this)
  /\ (exists this',
      operator_dec int NO_ATOMICS 0 2%nat this
      = Some (convert int (v - 1), this')
      /\ mValue this' = convert int (v - 1) /\ mLock this' = mLock this)
  /\ (exists this',
      operator_dec_int int NO_ATOMICS 0 2%nat this = Some (v, this')
      /\ mValue this' = convert int (v - 1) /\ mLock this' = mLock this)
  /\ (in_range int (v + 1) -> convert int (v + 1) = v + 1)
  /\ (in_range int (v - 1) -> convert int (v - 1) = v - 1).
Proof.
  apply (increment_decrement_operators int NO_ATOMICS 0 2%nat
           (Atomic.ctor_T _TTHREAD_WIN32_ 9)).
  exists _TTHREAD_WIN32_. reflexivity.
Defined.

Example operator_inc_10 :
  operator_inc int HAS_ATOMIC_BUILTINS 0 0%nat (Atomic.ctor_T _TTHREAD_POSIX_ 9)
  = Some (10, Atomic.ctor_T _TTHREAD_POSIX_ 10).
Proof. reflexivity. Qed.

Example operator_inc_uchar_wraps :
  operator_inc_int unsigned_char NO_ATOMICS 0 0%nat
    (Atomic.ctor_T _TTHREAD_POSIX_ 255)
  = Some (255, Atomic.ctor_T _TTHREAD_POSIX_ 0).
Proof. reflexivity. Qed.

(** ** class atomic_flag *)

Lemma asm_gnuc_ppc_test_and_set_spec (lost : nat) (mem : Z) :
  AtomicFlag.asm_gnuc_ppc_test_and_set lost mem
  = (mem, if Z.eqb mem 0 then 1 else mem).
Proof.
  induction lost as [|lost IH]; cbn; destruct (Z.eqb_spec mem 0); subst;
    try reflexivity.
  rewrite IH. reflexivity.
Qed.

Lemma test_and_set_spec (cfg : atomics) (lost fuel : nat) (t : tid)
    (order : memory_order) (this : AtomicFlag.atomic_flag) :
  unlocked (AtomicFlag.mLock this) ->
  exists this',
    AtomicFlag.test_and_set cfg lost fuel t order this
    = Some (AtomicFlag.is_set this, this')
    /\ AtomicFlag.is_set this' = true
    /\ AtomicFlag.mLock this' = AtomicFlag.mLock this.
Proof.
  intros Hu. unfold AtomicFlag.test_and_set, AtomicFlag.is_set.
  destruct cfg as [|arch|].
  - destruct this as [m v]. eexists. split; [reflexivity|]. cbn. auto.
  - destruct this as [m v].
    unfold bind, AtomicFlag.on_mFlag, ret. cbn [AtomicFlag.mFlag].
    destruct arch; cbn -[AtomicFlag.asm_gnuc_ppc_test_and_set].
    + eexists. split; [reflexivity|]. cbn. auto.
    + eexists. split; [reflexivity|]. cbn. auto.
    + rewrite asm_gnuc_ppc_test_and_set_spec.
      eexists. split; [reflexivity|]. cbn. split; [|reflexivity].
      unfold static_cast_bool. destruct (Z.eqb_spec v 0) as [->|Hv].
      * reflexivity.
      * apply negb_true_iff, Z.eqb_neq, Hv.
  - unfold bind.
    destruct (guard_scope AtomicFlag.mLock_ref fuel t this Hu)
      as (m & -> & Hul).
    destruct this as [m0 v]. unfold lock_guard_dtor, modify, gets, ret.
    cbn in *. rewrite Hul. eexists. split; [reflexivity|]. cbn. auto.
Qed.

Lemma clear_spec (cfg : atomics) (fuel : nat) (t : tid)
    (order : memory_order) (this : AtomicFlag.atomic_flag) :
  unlocked (AtomicFlag.mLock this) ->
  AtomicFlag.clear cfg fuel t order this
  = Some (tt, AtomicFlag.set_mFlag 0 this).
Proof.
  intros Hu. unfold AtomicFlag.clear.
  destruct cfg as [|arch|].
  - destruct this. reflexivity.
  - destruct this, arch; reflexivity.
  - unfold bind.
    destruct (guard_scope AtomicFlag.mLock_ref fuel t this Hu)
      as (m & -> & Hul).
    destruct this as [m0 v]. unfold lock_guard_dtor, modify, gets, ret.
    cbn in *. rewrite Hul. reflexivity.
Qed.

Lemma run_calls_refines (cfg : atomics) (fuel : nat) (cs : list flag_call)
    (this : AtomicFlag.atomic_flag) :
  unlocked (AtomicFlag.mLock this) ->
  exists this',
    run_calls cfg fuel cs this
    = Some (fst (spec_run_calls cs (AtomicFlag.is_set this)), this')
    /\ AtomicFlag.is_set this'
       = snd (spec_run_calls cs (AtomicFlag.is_set this))
    /\ AtomicFlag.mLock this' = AtomicFlag.mLock this.
Proof.
  revert this. induction cs as [|c cs IH]; intros this Hu.
  - exists this. cbn. auto.
  - destruct c as [t lost order|t order]; cbn [run_calls spec_run_calls].
    + destruct (test_and_set_spec cfg lost fuel t order this Hu)
        as (this1 & Hrun & Hset & Hlock).
      assert (unlocked (AtomicFlag.mLock this1)) as Hu1 by (rewrite Hlock; exact Hu).
      destruct (IH this1 Hu1) as (this2 & Hrun2 & Hset2 & Hlock2).
      exists this2. unfold bind at 1. rewrite Hrun. unfold bind at 1.
      rewrite Hrun2. unfold spec_test_and_set. rewrite Hset in *.
      destruct (spec_run_calls cs true) as [bs flag2]. cbn in *.
      repeat split; congruence.
    + pose (this1 := AtomicFlag.set_mFlag 0 this).
      assert (unlocked (AtomicFlag.mLock this1)) as Hu1 by exact Hu.
      destruct (IH this1 Hu1) as (this2 & Hrun2 & Hset2 & Hlock2).
      exists this2. unfold bind. rewrite (clear_spec cfg fuel t order this Hu).
      fold this1. rewrite Hrun2. unfold spec_clear. cbn in *.
      repeat split; congruence.
Qed.

(** C4. On every backend (the builtin, the assembly of each of the three
    compilers, the mutex-guarded one) [test_and_set] returns the value the
    flag held and leaves the flag set, and [clear] leaves it cleared: each
    backend does to the flag what the specification's flag does, call by
    call and over every sequence of calls, so no two of them can be told
    apart by the values they return. *)
Theorem atomic_flag_backends_agree (cfg : atomics) (fuel : nat)
    (this : AtomicFlag.atomic_flag) :
  unlocked (AtomicFlag.mLock this) ->
  (forall t lost order, exists this',
      AtomicFlag.test_and_set cfg lost fuel t order this
      = Some (fst (spec_test_and_set (AtomicFlag.is_set this)), this')
      /\ AtomicFlag.is_set this'
         = snd (spec_test_and_set (AtomicFlag.is_set this))
      /\ AtomicFlag.is_set this' = true)
  /\ (forall t order, exists this',
      AtomicFlag.clear cfg fuel t order this
      = Some (fst (spec_clear (AtomicFlag.is_set this)), this')
      /\ AtomicFlag.is_set this' = snd (spec_clear (AtomicFlag.is_set this))
      /\ AtomicFlag.is_set this' = false)
  /\ (forall cs, exists this',
      run_calls cfg fuel cs this
      = Some (fst (spec_run_calls cs (AtomicFlag.is_set this)), this')
      /\ AtomicFlag.is_set this'
         = snd (spec_run_calls cs (AtomicFlag.is_set this))).
Proof.
  intros Hu. repeat split.
  - intros t lost order.
    destruct (test_and_set_spec cfg lost fuel t order this Hu)
      as (this' & Hrun & Hset & _).
    exists this'. cbn. auto.
  - intros t order. exists (AtomicFlag.set_mFlag 0 this).
    rewrite clear_spec by assumption. cbn. auto.
  - intros cs. destruct (run_calls_refines cfg fuel cs this Hu)
      as (this' & Hrun & Hset & _).
    exists this'. auto.
Qed.

Lemma atomic_flag_backends_agree_witness :
  let this := AtomicFlag.ctor_int _TTHREAD_WIN32_ 5 in
  (forall t lost order, exists this',
      AtomicFlag.test_and_set (HAS_ASM_ATOMICS GNUC_PPC) lost 0 t order this
      = Some (fst (spec_test_and_set (AtomicFlag.is_set this)), this')
      /\ AtomicFlag.is_set this'
         = snd (spec_test_and_set (AtomicFlag.is_set this))
      /\ AtomicFlag.is_set this' = true)
  /\ (forall t order, exists this',
      AtomicFlag.clear (HAS_ASM_ATOMICS GNUC_PPC) 0 t order this
      = Some (fst (spec_clear (AtomicFlag.is_set this)), this')
      /\ AtomicFlag.is_set this' = snd (spec_clear (AtomicFlag.is_set this))
      /\ AtomicFlag.is_set this' = false)
  /\ (forall cs, exists this',
      run_calls (HAS_ASM_ATOMICS GNUC_PPC) 0 cs this
      = Some (fst (spec_run_calls cs (AtomicFlag.is_set this)), this')
      /\ AtomicFlag.is_set this'
         = snd (spec_run_calls cs (AtomicFlag.is_set this))).
Proof.
  apply (atomic_flag_backends_agree (HAS_ASM_ATOMICS GNUC_PPC) 0
           (AtomicFlag.ctor_int _TTHREAD_WIN32_ 5)).
  exists _TTHREAD_WIN32_. reflexivity.
Defined.

(** Two flags on any two backends that agree on being set return the same
    values over any sequence of calls. *)
Corollary backends_indistinguishable (cfg1 cfg2 : atomics) (fuel1 fuel2 : nat)
    (cs : list flag_call) (this1 this2 : AtomicFlag.atomic_flag) :
  unlocked (AtomicFlag.mLock this1) ->
  unlocked (AtomicFlag.mLock this2) ->
  AtomicFlag.is_set this1 = AtomicFlag.is_set this2 ->
  exists bs this1' this2',
    run_calls cfg1 fuel1 cs this1 = Some (bs, this1')
    /\ run_calls cfg2 fuel2 cs this2 = Some (bs, this2')
    /\ AtomicFlag.is_set this1' = AtomicFlag.is_set this2'.
Proof.
  intros Hu1 Hu2 Heq.
  destruct (run_calls_refines cfg1 fuel1 cs this1 Hu1) as (s1 & H1 & E1 & _).
  destruct (run_calls_refines cfg2 fuel2 cs this2 Hu2) as (s2 & H2 & E2 & _).
  rewrite <- Heq in H2, E2.
  exists (fst (spec_run_calls cs (AtomicFlag.is_set this1))), s1, s2.
  repeat split; congruence.
Qed.

Example ppc_test_and_set_keeps_nonzero :
  AtomicFlag.test_and_set (HAS_ASM_ATOMICS GNUC_PPC) 3 0 0%nat
    memory_order_seq_cst (AtomicFlag.ctor_int _TTHREAD_POSIX_ 5)
  = Some (true, AtomicFlag.ctor_int _TTHREAD_POSIX_ 5).
Proof. reflexivity. Qed.

Example x86_test_and_set_stores_one :
  AtomicFlag.test_and_set (HAS_ASM_ATOMICS GNUC_X86) 0 0 0%nat
    memory_order_seq_cst (AtomicFlag.ctor_int _TTHREAD_POSIX_ 5)
  = Some (true, AtomicFlag.ctor_int _TTHREAD_POSIX_ 1).
Proof. reflexivity. Qed.

(** C10. A default-constructed flag starts cleared: its first
    [test_and_set] returns false and leaves it set.  A flag constructed from
    a nonzero [int] starts set: its first [test_and_set] returns true. *)
Theorem atomic_flag_initial_state (cfg : atomics) (p : platform)
    (lost fuel : nat) (t : tid) (order : memory_order) (value : Z) :
  value <> 0 ->
  (exists this',
      AtomicFlag.test_and_set cfg lost fuel t order (AtomicFlag.ctor p)
      = Some (false, this')
      /\ AtomicFlag.is_set this' = true)
  /\ (exists this',
      AtomicFlag.test_and_set cfg lost fuel t order
        (AtomicFlag.ctor_int p value)
      = Some (true, this')
      /\ AtomicFlag.is_set this' = true).
Proof.
  intros Hvalue. split.
  - destruct (test_and_set_spec cfg lost fuel t order (AtomicFlag.ctor p))
      as (this' & Hrun & Hset & _); [exists p; reflexivity|].
    exists this'. split; [exact Hrun | exact Hset].
  - destruct (test_and_set_spec cfg lost fuel t order
                (AtomicFlag.ctor_int p value))
      as (this' & Hrun & Hset & _); [exists p; reflexivity|].
    exists this'. split; [|exact Hset]. rewrite Hrun. do 2 f_equal.
    unfold AtomicFlag.is_set, static_cast_bool. cbn.
    apply negb_true_iff, Z.eqb_neq, Hvalue.
Qed.

Lemma atomic_flag_initial_state_witness :
  (exists this',
      AtomicFlag.test_and_set NO_ATOMICS 0 0 1%nat memory_order_seq_cst
        (AtomicFlag.ctor _TTHREAD_WIN32_)
      = Some (false, this')
      /\ AtomicFlag.is_set this' = true)
  /\ (exists this',
      AtomicFlag.test_and_set NO_ATOMICS 0 0 1%nat memory_order_seq_cst
        (AtomicFlag.ctor_int _TTHREAD_WIN32_ 1)
      = Some (true, this')
      /\ AtomicFlag.is_set this' = true).
Proof.
  apply (atomic_flag_initial_state NO_ATOMICS _TTHREAD_WIN32_ 0 0 1%nat
           memory_order_seq_cst 1).
  discriminate.
Defined.

(** ** class mutex: [try_lock] *)

Lemma try_lock_other (a b : tid) (m : mutex) :
  held_by a m -> b <> a -> mutex_try_lock b m = (false, m).
Proof.
  unfold held_by. intros Hheld Hne.
  destruct m as [[o n] al|[o]]; cbn in *.
  - destruct n as [|n]; [discriminate|]. subst o.
    unfold Win32.TryEnterCriticalSection. cbn.
    destruct (Nat.eqb_spec a b); [congruence|]. reflexivity.
  - subst o. reflexivity.
Qed.

Lemma try_lock_each_others (a : tid) (callers : list tid) (m : mutex) :
  held_by a m ->
  Forall (fun b => b <> a) callers ->
  try_lock_each callers m = (map (fun _ => false) callers, m).
Proof.
  intros Hheld Hall. induction Hall as [|b callers Hb _ IH]; cbn.
  - reflexivity.
  - rewrite (try_lock_other a b m Hheld Hb), IH. reflexivity.
Qed.

Lemma try_lock_recursive_win32 (a : tid) (mHandle : Win32.CRITICAL_SECTION) :
  held_by a (mutex_win32 mHandle true) ->
  fst (Win32.TryEnterCriticalSection a mHandle) = true
  /\ mutex_try_lock a (mutex_win32 mHandle true)
     = (false, mutex_win32 mHandle true).
Proof.
  unfold held_by. destruct mHandle as [o n]. cbn.
  destruct n as [|n]; [discriminate|]. intros ->.
  unfold Win32.TryEnterCriticalSection, Win32.LeaveCriticalSection. cbn.
  rewrite Nat.eqb_refl. cbn. rewrite Nat.eqb_refl. auto.
Qed.

(** C6. While a thread [a] holds a mutex, [try_lock()] by any other thread
    returns false and leaves the mutex as it was, however many such calls
    are made before [a] unlocks; [mutex_try_lock] is a total function, it
    has no way to wait.  On Win32, with [mAlreadyLocked] set, this holds of
    the holder too: the critical section lets [a] in again, and [try_lock]
    leaves it and returns false. *)
Theorem try_lock_held (a : tid) (m : mutex) :
  held_by a m ->
  (forall b, b <> a -> mutex_try_lock b m = (false, m))
  /\ (forall callers, Forall (fun b => b <> a) callers ->
        try_lock_each callers m = (map (fun _ => false) callers, m))
  /\ (forall mHandle, m = mutex_win32 mHandle true ->
        fst (Win32.TryEnterCriticalSection a mHandle) = true
        /\ mutex_try_lock a m = (false, m)).
Proof.
  intros Hheld. repeat split.
  - intros b Hb. exact (try_lock_other a b m Hheld Hb).
  - intros callers Hall. exact (try_lock_each_others a callers m Hheld Hall).
  - subst m. apply (try_lock_recursive_win32 a mHandle Hheld).
  - subst m. apply (try_lock_recursive_win32 a mHandle Hheld).
Qed.

Lemma try_lock_held_witness :
  let a := 1%nat in
  let m := mutex_win32 {| Win32.OwningThread := Some 1%nat;
                          Win32.RecursionCount := 1 |} true in
  (forall b, b <> a -> mutex_try_lock b m = (false, m))
  /\ (forall callers, Forall (fun b => b <> a) callers ->
        try_lock_each callers m = (map (fun _ => false) callers, m))
  /\ (forall mHandle, m = mutex_win32 mHandle true ->
        fst (Win32.TryEnterCriticalSection a mHandle) = true
        /\ mutex_try_lock a m = (false, m)).
Proof.
  apply (try_lock_held 1%nat
           (mutex_win32 {| Win32.OwningThread := Some 1%nat;
                           Win32.RecursionCount := 1 |} true)).
  reflexivity.
Defined.

(** The state of the witness is the one [lock()] by thread 1 leaves. *)
Example lock_by_1 :
  mutex_lock 0 1%nat (mutex_ctor _TTHREAD_WIN32_)
  = Some (mutex_win32 {| Win32.OwningThread := Some 1%nat;
                         Win32.RecursionCount := 1 |} true).
Proof. reflexivity. Qed.

(** Once the holder has unlocked, [try_lock()] by another thread succeeds. *)
Lemma try_lock_after_unlock (p : platform) (fuel : nat) (a b : tid) (m : mutex) :
  mutex_lock fuel a (mutex_ctor p) = Some m ->
  exists m', mutex_try_lock b (mutex_unlock a m) = (true, m') /\ held_by b m'.
Proof.
  intros Hl. destruct (mutex_lock_ctor p fuel a) as (m0 & Hl0 & _ & Hu).
  rewrite Hl in Hl0. injection Hl0 as ->. rewrite Hu.
  destruct p; cbn; eexists; split; reflexivity.
Qed.

(** ** class lock_guard *)

(** A guard that is neither copied nor assigned to calls [lock()] on its
    mutex once, at construction, and [unlock()] on it once, at destruction,
    and calls nothing on any other mutex; the destruction of a
    default-constructed guard calls nothing at all.  The calls are read off
    a mutex that records them, which wraps any mutex the guard can be
    instantiated with. *)
Theorem lock_guard_calls {S T : Type} `{Lockable T}
    (r : ref S (probed T)) (fuel : nat) (t : tid) (s s1 : S)
    (guard : lock_guard S (probed T)) :
  (forall x s0, deref r (assign r x s0) = x) ->
  lock_guard_ctor fuel t r s = Some (guard, s1) ->
  calls (deref r s1) = calls (deref r s) ++ [call_lock t]
  /\ (forall s2, exists s3,
        lock_guard_dtor t guard s2 = Some (tt, s3)
        /\ s3 = assign r (unlock t (deref r s2)) s2
        /\ calls (deref r s3) = calls (deref r s2) ++ [call_unlock t])
  /\ (exists s3,
        lock_guard_lifetime fuel t r s = Some (tt, s3)
        /\ calls (deref r s3)
           = calls (deref r s) ++ [call_lock t; call_unlock t])
  /\ (forall s2, lock_guard_dtor t (@lock_guard_default S (probed T)) s2
                 = Some (tt, s2)).
Proof.
  intros Hget Hctor.
  assert (exists m, lock fuel t (inner (deref r s)) = Some m
                    /\ guard = {| mMutex := Some r |}
                    /\ s1 = assign r (Probed m (calls (deref r s)
                                                ++ [call_lock t])) s)
    as (m & Hlock & -> & ->).
  { unfold lock_guard_ctor in Hctor. cbn in Hctor.
    destruct (lock fuel t (inner (deref r s))) as [m|]; [|discriminate].
    injection Hctor as <- <-. eauto. }
  repeat split.
  - rewrite Hget. reflexivity.
  - intros s2. eexists. split; [reflexivity|]. split; [reflexivity|].
    rewrite Hget. reflexivity.
  - eexists. split.
    + unfold lock_guard_lifetime, bind, lock_guard_ctor. cbn. rewrite Hlock.
      reflexivity.
    + rewrite !Hget. cbn. rewrite <- app_assoc. reflexivity.
Qed.

Lemma lock_guard_calls_witness :
  let r : ref (probed mutex) (probed mutex) := ref_self in
  let s := Probed (mutex_ctor _TTHREAD_WIN32_) [] in
  let s1 := Probed (mutex_win32 {| Win32.OwningThread := Some 3%nat;
                                  Win32.RecursionCount := 1 |} true)
                   [call_lock 3%nat] in
  let guard := {| mMutex := Some r |} in
  let t := 3%nat in
  calls (deref r s1) = calls (deref r s) ++ [call_lock t]
  /\ (forall s2, exists s3,
        lock_guard_dtor t guard s2 = Some (tt, s3)
        /\ s3 = assign r (unlock t (deref r s2)) s2
        /\ calls (deref r s3) = calls (deref r s2) ++ [call_unlock t])
  /\ (exists s3,
        lock_guard_lifetime 0 t r s = Some (tt, s3)
        /\ calls (deref r s3)
           = calls (deref r s) ++ [call_lock t; call_unlock t])
  /\ (forall s2, lock_guard_dtor t (@lock_guard_default (probed mutex)
                                      (probed mutex)) s2
                 = Some (tt, s2)).
Proof.
  apply (lock_guard_calls (T := mutex) ref_self 0 3%nat
           (Probed (mutex_ctor _TTHREAD_WIN32_) [])
           (Probed (mutex_win32 {| Win32.OwningThread := Some 3%nat;
                                   Win32.RecursionCount := 1 |} true)
                   [call_lock 3%nat])
           {| mMutex := Some ref_self |}).
  - reflexivity.
  - reflexivity.
Defined.

(** Another mutex of the same object sees none of the guard's calls. *)
Lemma lock_guard_frame {S T : Type} `{Lockable T}
    (r r2 : ref S (probed T)) (fuel : nat) (t : tid) (s s3 : S) :
  (forall x s0, deref r2 (assign r x s0) = deref r2 s0) ->
  lock_guard_lifetime fuel t r s = Some (tt, s3) ->
  deref r2 s3 = deref r2 s.
Proof.
  intros Hframe. unfold lock_guard_lifetime, bind, lock_guard_ctor. cbn.
  destruct (lock fuel t (inner (deref r s))); [|discriminate].
  intros [= <-]. rewrite !Hframe. reflexivity.
Qed.

Example lock_guard_lifetime_posix :
  lock_guard_lifetime 0 5%nat ref_self (Probed (mutex_ctor _TTHREAD_POSIX_) [])
  = Some (tt, Probed (mutex_ctor _TTHREAD_POSIX_)
                [call_lock 5%nat; call_unlock 5%nat]).
Proof. reflexivity. Qed.

(** ** class mutex: [lock] *)

Lemma while_mAlreadyLocked_true (fuel : nat) :
  while_mAlreadyLocked fuel true = None.
Proof. induction fuel as [|fuel IH]; [reflexivity | exact IH]. Qed.

Lemma while_mAlreadyLocked_false (fuel : nat) :
  while_mAlreadyLocked fuel false = Some tt.
Proof. destruct fuel; reflexivity. Qed.

(** The steps of [lock()] and the function [mutex_lock] tell the same
    story: when the function returns, the steps lead to [lock_return] with
    the same mutex. *)
Lemma mutex_lock_steps (fuel : nat) (t : tid) (m m' : mutex) :
  mutex_lock fuel t m = Some m' ->
  rtc (lock_steps t) (lock_enter, m) (lock_return, m').
Proof.
  destruct m as [h al|h]; cbn.
  - destruct (Win32.EnterCriticalSection t h) as [h'|] eqn:Henter;
      [|discriminate].
    destruct al; [rewrite while_mAlreadyLocked_true; discriminate|].
    rewrite while_mAlreadyLocked_false. intros [= <-].
    eapply rtc_l; [unfold lock_steps; cbn; rewrite Henter; reflexivity|].
    eapply rtc_l; [reflexivity|].
    eapply rtc_l; [reflexivity|]. apply rtc_refl.
  - destruct (Posix.pthread_mutex_lock t h) as [h'|] eqn:Hlock;
      [|discriminate].
    intros [= <-].
    eapply rtc_l; [unfold lock_steps; cbn; rewrite Hlock; reflexivity|].
    apply rtc_refl.
Qed.

(** A thread that took the mutex with [lock()] and calls [lock()] again
    does not return: on Win32 it enters the critical section a second time
    and then sleeps on [mAlreadyLocked] for ever, elsewhere it waits inside
    [pthread_mutex_lock]. *)
Lemma relock_after_lock_never_returns (p : platform) (fuel : nat) (t : tid)
    (m : mutex) :
  mutex_lock fuel t (mutex_ctor p) = Some m ->
  (forall fuel', mutex_lock fuel' t m = None)
  /\ (forall pc m', rtc (lock_steps t) (lock_enter, m) (pc, m') ->
                    pc <> lock_return).
Proof.
  intros Hl. split.
  - intros fuel'. destruct p; cbn in Hl.
    + rewrite while_mAlreadyLocked_false in Hl. injection Hl as <-.
      cbn. unfold Win32.EnterCriticalSection, Win32.TryEnterCriticalSection.
      cbn. rewrite Nat.eqb_refl, while_mAlreadyLocked_true. reflexivity.
    + injection Hl as <-. reflexivity.
  - assert (forall a b, rtc (lock_steps t) a b ->
              (a = (lock_enter, m)
               \/ exists h, a = (lock_while, mutex_win32 h true)) ->
              fst b <> lock_return) as Hinv.
    { induction 1 as [a|a b c Hstep _ IH]; intros Ha.
      - destruct Ha as [->|[h ->]]; discriminate.
      - apply IH. unfold lock_steps in Hstep.
        destruct Ha as [->|[h ->]]; cbn in Hstep.
        + destruct p; cbn in Hl.
          * rewrite while_mAlreadyLocked_false in Hl. injection Hl as <-.
            cbn in Hstep.
            destruct (Win32.EnterCriticalSection t _); [|discriminate].
            injection Hstep as <-. eauto.
          * injection Hl as <-. discriminate.
        + injection Hstep as <-. eauto. }
    intros pc m' Hrtc. apply (Hinv _ _ Hrtc). auto.
Qed.

(** While a thread holds the mutex, another thread that calls [lock()] waits
    in its first step, and so cannot touch [mAlreadyLocked]. *)
Lemma lock_enter_waits (a b : tid) (m : mutex) :
  held_by a m -> b <> a -> lock_step b lock_enter m = None.
Proof.
  unfold held_by. intros Hheld Hne.
  destruct m as [[o n] al|[o]]; cbn in *.
  - destruct n as [|n]; [discriminate|]. subst o.
    unfold Win32.EnterCriticalSection, Win32.TryEnterCriticalSection. cbn.
    destruct (Nat.eqb_spec a b); [congruence|]. reflexivity.
  - subst o. reflexivity.
Qed.

(** C7, at the input where it fails.  On Win32, a thread that took a fresh
    mutex with [try_lock()] holds it, and its next [lock()] returns: the
    critical section lets its owner in again and [try_lock()] has left
    [mAlreadyLocked] false, so the loop of [lock()] is not entered. *)
Theorem lock_after_try_lock_returns (t : tid) :
  exists m1 m2,
    mutex_try_lock t (mutex_ctor _TTHREAD_WIN32_) = (true, m1)
    /\ held_by t m1
    /\ (forall fuel, mutex_lock fuel t m1 = Some m2)
    /\ rtc (lock_steps t) (lock_enter, m1) (lock_return, m2)
    /\ held_by t m2.
Proof.
  exists (mutex_win32 {| Win32.OwningThread := Some t;
                         Win32.RecursionCount := 1 |} false),
         (mutex_win32 {| Win32.OwningThread := Some t;
                         Win32.RecursionCount := 2 |} true).
  assert (forall fuel,
    mutex_lock fuel t
      (mutex_win32 {| Win32.OwningThread := Some t;
                      Win32.RecursionCount := 1 |} false)
    = Some (mutex_win32 {| Win32.OwningThread := Some t;
                           Win32.RecursionCount := 2 |} true)) as Hlock.
  { intros fuel. cbn.
    unfold Win32.EnterCriticalSection, Win32.TryEnterCriticalSection. cbn.
    rewrite Nat.eqb_refl, while_mAlreadyLocked_false. reflexivity. }
  repeat split.
  - exact Hlock.
  - exact (mutex_lock_steps 0 t _ _ (Hlock 0%nat)).
Qed.

Example try_lock_then_lock_win32 :
  mutex_try_lock 1%nat (mutex_ctor _TTHREAD_WIN32_)
  = (true, mutex_win32 {| Win32.OwningThread := Some 1%nat;
                          Win32.RecursionCount := 1 |} false)
  /\ mutex_lock 0 1%nat
       (mutex_win32 {| Win32.OwningThread := Some 1%nat;
                       Win32.RecursionCount := 1 |} false)
     = Some (mutex_win32 {| Win32.OwningThread := Some 1%nat;
                            Win32.RecursionCount := 2 |} true).
Proof. split; reflexivity. Qed.

(** Elsewhere the same calls do not return. *)
Example try_lock_then_lock_posix (fuel : nat) :
  mutex_try_lock 1%nat (mutex_ctor _TTHREAD_POSIX_)
  = (true, mutex_posix {| Posix.owner := Some 1%nat |})
  /\ mutex_lock fuel 1%nat (mutex_posix {| Posix.owner := Some 1%nat |})
     = None.
Proof. split; reflexivity. Qed.

(** ** Threads in [fetch_add] *)

Lemma count_stored_insert (l : list fetch_add_pc) (t : nat)
    (pc pc' : fetch_add_pc) :
  l !! t = Some pc ->
  count_stored (<[t := pc']> l)
  = count_stored l + Z.b2z (stored pc') - Z.b2z (stored pc).
Proof.
  revert t. induction l as [|x l IH]; intros [|t] Hl; try discriminate.
  - injection Hl as ->. cbn. unfold Z.b2z. lia.
  - cbn [count_stored]. change (<[S t:=pc']> (x :: l)) with (x :: <[t:=pc']> l).
    cbn [count_stored]. rewrite (IH t Hl). lia.
Qed.

Lemma count_stored_replicate (n : nat) (pc : fetch_add_pc) :
  count_stored (replicate n pc) = Z.b2z (stored pc) * Z.of_nat n.
Proof.
  induction n as [|n IH]; [cbn; lia|].
  cbn [replicate count_stored]. rewrite IH. unfold Z.b2z. lia.
Qed.

Lemma count_stored_all_returned (l : list fetch_add_pc) :
  Forall (fun pc => returned pc = true) l ->
  count_stored l = Z.of_nat (length l).
Proof.
  induction 1 as [|pc l Hpc _ IH]; [reflexivity|].
  cbn [count_stored length]. rewrite IH.
  destruct pc; try discriminate. cbn [stored]. lia.
Qed.

Lemma sum_steps_left_insert (l : list fetch_add_pc) (t : nat)
    (pc pc' : fetch_add_pc) :
  l !! t = Some pc ->
  (steps_left pc' < steps_left pc)%nat ->
  (sum_list (steps_left <$> <[t := pc']> l)
   < sum_list (steps_left <$> l))%nat.
Proof.
  revert t. induction l as [|x l IH]; intros [|t] Hl Hlt; try discriminate.
  - injection Hl as ->. cbn. lia.
  - change (<[S t:=pc']> (x :: l)) with (x :: <[t:=pc']> l).
    cbn [fmap list_fmap sum_list] in *. specialize (IH t Hl Hlt). cbn in *. lia.
Qed.

Section steps.
Context (T : int_type) (arg : Z) (cfg : atomics) (p : platform) (v : Z).

Ltac step_cases pc this Hstep :=
  destruct this as [m value];
  destruct pc as [|[]| | | |?[]|]; cbn in *; try discriminate;
  destruct p; cbn in *.

(** A step of a thread while no thread has the mutex. *)
Lemma step_free (t : tid) (pc pc' : fetch_add_pc)
    (this this' : Atomic.atomic) :
  fetch_add_step T arg t pc this = Some (pc', this') ->
  holding pc = false ->
  Atomic.mLock this = mutex_ctor p ->
  (holding pc' = false /\ Atomic.mLock this' = mutex_ctor p)
  \/ (holding pc' = true
      /\ mutex_at p t pc' = Some (Atomic.mLock this')
      /\ locals_ok T arg this' pc').
Proof.
  intros Hstep Hhold Hm.
  step_cases pc this Hstep; subst m; cbn in *; simplify_eq; cbn; auto.
Qed.

(** A step of the thread that has the mutex. *)
Lemma step_holder (t : tid) (pc pc' : fetch_add_pc)
    (this this' : Atomic.atomic) :
  fetch_add_step T arg t pc this = Some (pc', this') ->
  holding pc = true ->
  mutex_at p t pc = Some (Atomic.mLock this) ->
  (holding pc' = false /\ Atomic.mLock this' = mutex_ctor p)
  \/ (holding pc' = true
      /\ mutex_at p t pc' = Some (Atomic.mLock this')
      /\ locals_ok T arg this' pc').
Proof.
  intros Hstep Hhold Hm.
  step_cases pc this Hstep; simplify_eq; cbn in *;
    unfold Win32.LeaveCriticalSection in *; cbn in *;
    rewrite ?Nat.eqb_refl in *; simplify_eq; cbn; auto.
Qed.

(** A step of a thread while another thread has the mutex: it is not a
    step that takes the mutex, and it leaves the cell alone. *)
Lemma step_other (t h : tid) (pc pc' pch : fetch_add_pc)
    (this this' : Atomic.atomic) :
  fetch_add_step T arg t pc this = Some (pc', this') ->
  holding pc = false ->
  pc <> fa_builtin ->
  h <> t ->
  mutex_at p h pch = Some (Atomic.mLock this) ->
  holding pc' = false /\ this' = this.
Proof.
  intros Hstep Hhold Hpc Hne Hm.
  step_cases pc this Hstep; try congruence; simplify_eq; auto.
  - destruct pch as [|[]| | | |?[]|]; cbn in *; simplify_eq;
      unfold Win32.EnterCriticalSection, Win32.TryEnterCriticalSection in *;
      cbn in *; destruct (Nat.eqb_spec h t); simplify_eq.
  - destruct pch as [|[]| | | |?[]|]; cbn in *; simplify_eq.
Qed.

(** What a step does to the value, and that it is a step forward. *)
Lemma step_value (t : tid) (pc pc' : fetch_add_pc)
    (this this' : Atomic.atomic) (k : Z) :
  fetch_add_step T arg t pc this = Some (pc', this') ->
  locals_ok T arg this pc ->
  pc_ok cfg pc = true ->
  Atomic.mValue this = convert T (v + arg * k) ->
  Atomic.mValue this'
  = convert T (v + arg * (k + Z.b2z (stored pc') - Z.b2z (stored pc)))
  /\ pc_ok cfg pc' = true.
Proof.
  intros Hstep Hloc Hok Hv.
  assert (forall x, x = convert T (v + arg * k) ->
            convert T (x + arg) = convert T (v + arg * (k + 1 - 0)))
    as Hadd.
  { intros x ->. rewrite convert_add_l. f_equal. ring. }
  assert (forall x, x = convert T (v + arg * k) ->
            x = convert T (v + arg * (k + 0 - 0))
            /\ x = convert T (v + arg * (k + 1 - 1))) as Hsame.
  { intros x ->. split; f_equal; ring. }
  destruct (Hsame _ Hv) as [H00 H11].
  destruct this as [m value];
    destruct pc as [|[]| | | |?[]|]; cbn in *; try discriminate;
    destruct m as [[o n] al|[o]]; cbn in *;
    unfold Win32.EnterCriticalSection, Win32.TryEnterCriticalSection in *;
    cbn in *;
    repeat match goal with
      | H : context [match ?x with _ => _ end] |- _ =>
          destruct x eqn:?; cbn in *; try discriminate
      end;
    simplify_eq; cbn; (split; [auto | destruct cfg; auto]).
Qed.

Lemma step_forward (t : tid) (pc pc' : fetch_add_pc)
    (this this' : Atomic.atomic) :
  fetch_add_step T arg t pc this = Some (pc', this') ->
  (holding pc = true -> mutex_at p t pc = Some (Atomic.mLock this)) ->
  (steps_left pc' < steps_left pc)%nat.
Proof.
  intros Hstep Hm.
  destruct this as [m value];
    destruct pc as [|[]| | | |?[]|]; cbn in *; try discriminate;
    try specialize (Hm eq_refl);
    destruct p; cbn in *; simplify_eq; cbn in *;
    repeat match goal with
      | H : context [match ?x with _ => _ end] |- _ =>
          destruct x eqn:?; cbn in *; try discriminate
      end;
    simplify_eq; cbn; lia.
Qed.

Lemma not_holding_locals_ok (this : Atomic.atomic) (pc : fetch_add_pc) :
  holding pc = false -> locals_ok T arg this pc.
Proof. destruct pc; cbn; auto; discriminate. Qed.

Lemma holding_not_builtins (pc pc0 : fetch_add_pc) :
  holding pc = true -> pc_ok cfg pc = true -> pc_ok cfg pc0 = true ->
  pc0 <> fa_builtin.
Proof.
  intros Hh Hok Hok0 ->. destruct cfg; cbn in *; try discriminate.
  destruct pc as [|[]| | | |?[]|]; discriminate.
Qed.

(** The invariant is kept by every step of every thread, and every step
    brings the system nearer to the return of all threads. *)
Lemma invariant_step (s s' : system) :
  invariant T arg cfg p v s ->
  system_step T arg s s' ->
  invariant T arg cfg p v s'
  /\ (total_steps_left s' < total_steps_left s)%nat.
Proof.
  intros [Hv Hok Hmx] Hstep.
  destruct Hstep as [t pc pc' this' s Hl Hstep].
  destruct s as [this l]. cbn [cell threads] in *.
  assert (locals_ok T arg this pc
          /\ (holding pc = true -> mutex_at p t pc = Some (Atomic.mLock this)))
    as [Hloc Hmine].
  { destruct Hmx as [[Hm Hnone]|(h & pch & Hlh & Hhold & Hm & Hloc & Hothers)].
    - split; [apply not_holding_locals_ok; eauto|].
      intros Hh. rewrite (Hnone t pc Hl) in Hh. discriminate.
    - destruct (decide (t = h)) as [->|Hne].
      + rewrite Hl in Hlh. injection Hlh as <-. auto.
      + split; [apply not_holding_locals_ok; eauto|].
        intros Hh. rewrite (Hothers t pc Hne Hl) in Hh. discriminate. }
  destruct (step_value t pc pc' this this' _ Hstep Hloc (Hok t pc Hl) Hv)
    as [Hv' Hok'].
  split; [|unfold total_steps_left; cbn [threads];
           eapply sum_steps_left_insert; eauto using step_forward].
  split; cbn [cell threads].
  - rewrite (count_stored_insert l t pc pc' Hl). exact Hv'.
  - intros t0 pc0 Hl0. apply list_lookup_insert_Some in Hl0.
    destruct Hl0 as [(_ & <- & _)|[_ Hl0]]; eauto.
  - assert (forall h pch, l !! h = Some pch -> h <> t ->
              <[t := pc']> l !! h = Some pch) as Hkeep.
    { intros h pch Hlh Hne. rewrite list_lookup_insert_ne by auto. exact Hlh. }
    assert (t < length l)%nat as Hlen by (eapply lookup_lt_Some; eauto).
    destruct Hmx as [[Hm Hnone]|(h & pch & Hlh & Hhold & Hm & Hloch & Hothers)].
    + destruct (step_free t pc pc' this this' Hstep (Hnone t pc Hl) Hm)
        as [[Hh' Hm']|(Hh' & Hm' & Hloc')].
      * left. split; [exact Hm'|].
        intros t0 pc0 Hl0. apply list_lookup_insert_Some in Hl0.
        destruct Hl0 as [(_ & <- & _)|[_ Hl0]]; eauto.
      * right. exists t, pc'. rewrite list_lookup_insert_eq by exact Hlen.
        repeat split; auto.
        intros t0 pc0 Hne Hl0. rewrite list_lookup_insert_ne in Hl0 by auto.
        eauto.
    + destruct (decide (t = h)) as [->|Hne].
      * rewrite Hl in Hlh. injection Hlh as <-.
        destruct (step_holder h pc pc' this this' Hstep Hhold Hm)
          as [[Hh' Hm']|(Hh' & Hm' & Hloc')].
        -- left. split; [exact Hm'|].
           intros t0 pc0 Hl0. apply list_lookup_insert_Some in Hl0.
           destruct Hl0 as [(_ & <- & _)|[Hne Hl0]]; eauto.
        -- right. exists h, pc'. rewrite list_lookup_insert_eq by exact Hlen.
           repeat split; auto.
           intros t0 pc0 Hne Hl0.
           rewrite list_lookup_insert_ne in Hl0 by auto. eauto.
      * assert (pc <> fa_builtin) as Hnb
          by (eapply (holding_not_builtins pch); eauto).
        destruct (step_other t h pc pc' pch this this' Hstep
                    (Hothers t pc Hne Hl) Hnb (not_eq_sym Hne) Hm)
          as [Hh' ->].
        right. exists h, pch. repeat split; auto.
        intros t0 pc0 Hne0 Hl0. apply list_lookup_insert_Some in Hl0.
        destruct Hl0 as [(_ & <- & _)|[_ Hl0]]; eauto.
Qed.

Lemma invariant_init (n : nat) :
  in_range T v ->
  invariant T arg cfg p v (system_init cfg p v n).
Proof.
  intros Hv. split; cbn [system_init cell threads].
  - rewrite count_stored_replicate.
    replace (stored (fetch_add_start cfg)) with false by (destruct cfg; reflexivity).
    cbn. rewrite Z.mul_0_r, Z.add_0_r, convert_in_range by assumption.
    reflexivity.
  - intros t pc [-> _]%lookup_replicate. destruct cfg; reflexivity.
  - left. split; [reflexivity|].
    intros t pc [-> _]%lookup_replicate. destruct cfg; reflexivity.
Qed.

Lemma invariant_rtc (s s' : system) :
  invariant T arg cfg p v s ->
  rtc (system_step T arg) s s' ->
  invariant T arg cfg p v s'.
Proof.
  intros Hinv Hrtc. induction Hrtc as [|s s1 s2 Hstep _ IH]; [exact Hinv|].
  apply IH. exact (proj1 (invariant_step s s1 Hinv Hstep)).
Qed.

Lemma system_step_length (s s' : system) :
  system_step T arg s s' -> length (threads s') = length (threads s).
Proof. intros [t pc pc' this' s0 _ _]. cbn. apply length_insert. Qed.

Lemma rtc_length (s s' : system) :
  rtc (system_step T arg) s s' -> length (threads s') = length (threads s).
Proof.
  induction 1 as [|s s1 s2 Hstep _ IH]; [reflexivity|].
  rewrite IH. exact (system_step_length s s1 Hstep).
Qed.

(** The thread that has the mutex is never stuck. *)
Lemma holder_can_step (t : tid) (pc : fetch_add_pc) (this : Atomic.atomic) :
  holding pc = true ->
  mutex_at p t pc = Some (Atomic.mLock this) ->
  exists pc' this', fetch_add_step T arg t pc this = Some (pc', this').
Proof.
  intros Hh Hm. destruct this as [m value].
  destruct pc as [|[]| | | |?[]|]; cbn in *; try discriminate;
    destruct p; cbn in *; simplify_eq; cbn; eauto.
Qed.

(** While the mutex is free, no thread that has yet to return is stuck. *)
Lemma free_can_step (t : tid) (pc : fetch_add_pc) (this : Atomic.atomic) :
  holding pc = false ->
  returned pc = false ->
  Atomic.mLock this = mutex_ctor p ->
  exists pc' this', fetch_add_step T arg t pc this = Some (pc', this').
Proof.
  intros Hh Hr Hm. destruct this as [m value]. cbn in Hm. subst m.
  destruct pc as [|[]| | | |?[]|]; cbn in *; try discriminate;
    destruct p; cbn; eauto.
Qed.

Lemma all_returned_or_not (l : list fetch_add_pc) :
  Forall (fun pc => returned pc = true) l
  \/ exists t pc, l !! t = Some pc /\ returned pc = false.
Proof.
  induction l as [|pc l [IH|(t & pc0 & Hl & Hr)]].
  - left. constructor.
  - destruct (returned pc) eqn:Hr.
    + left. constructor; assumption.
    + right. exists 0%nat, pc. auto.
  - right. exists (S t), pc0. auto.
Qed.

(** No deadlock: as long as a thread has yet to return, some thread can
    take a step. *)
Lemma invariant_progress (s : system) :
  invariant T arg cfg p v s ->
  all_returned s \/ exists s', system_step T arg s s'.
Proof.
  intros [_ _ Hmx].
  destruct Hmx as [[Hm Hnone]|(h & pch & Hlh & Hhold & Hm & _ & _)].
  - destruct (all_returned_or_not (threads s)) as [Hall|(t & pc & Hl & Hr)];
      [left; exact Hall|right].
    destruct (free_can_step t pc (cell s) (Hnone t pc Hl) Hr Hm)
      as (pc' & this' & Hstep).
    eexists. econstructor; eassumption.
  - right. destruct (holder_can_step h pch (cell s) Hhold Hm)
      as (pc' & this' & Hstep).
    eexists. econstructor; eassumption.
Qed.

(** Every interleaving can be run to the end. *)
Lemma invariant_completes (s : system) :
  invariant T arg cfg p v s ->
  exists s', rtc (system_step T arg) s s' /\ all_returned s'.
Proof.
  remember (total_steps_left s) as k eqn:Hk. revert s Hk.
  induction k as [k IH] using lt_wf_ind. intros s -> Hinv.
  destruct (invariant_progress s Hinv) as [Hall|[s1 Hstep]].
  - exists s. split; [apply rtc_refl | exact Hall].
  - destruct (invariant_step s s1 Hinv Hstep) as [Hinv1 Hlt].
    destruct (IH _ Hlt s1 eq_refl Hinv1) as (s' & Hrtc & Hall).
    exists s'. split; [eapply rtc_l; eassumption | exact Hall].
Qed.

(** Every interleaving ends: it has no more steps than the threads have
    program points to pass. *)
Lemma invariant_bounded (k : nat) (s s' : system) :
  invariant T arg cfg p v s ->
  nsteps (system_step T arg) k s s' ->
  (k + total_steps_left s' <= total_steps_left s)%nat.
Proof.
  intros Hinv Hn. induction Hn as [|k s s1 s2 Hstep _ IH]; [lia|].
  destruct (invariant_step s s1 Hinv Hstep) as [Hinv1 Hlt].
  specialize (IH Hinv1). lia.
Qed.

Lemma total_steps_left_init (n : nat) :
  (total_steps_left (system_init cfg p v n) <= 10 * n)%nat.
Proof.
  unfold total_steps_left. cbn [system_init threads].
  induction n as [|n IH]; [cbn; lia|].
  cbn [replicate fmap list_fmap sum_list] in *.
  assert (steps_left (fetch_add_start cfg) <= 10)%nat
    by (destruct cfg; cbn; lia).
  cbn in *. lia.
Qed.
End steps.

(** The steps of [fetch_add] and the function [Atomic.fetch_add] tell the
    same story: when the function returns, the steps of a thread that is
    left alone lead to [fa_return] with the same result and the same cell. *)
Lemma fetch_add_steps_agree (T : int_type) (cfg : atomics) (fuel : nat)
    (t : tid) (arg : Z) (order : memory_order) (this this' : atomic) (r : Z) :
  fetch_add T cfg fuel t arg order this = Some (r, this') ->
  rtc (fetch_add_steps T arg t) (fetch_add_start cfg, this) (fa_return r, this').
Proof.
  assert (forall a b c, fetch_add_steps T arg t a b ->
            rtc (fetch_add_steps T arg t) b c ->
            rtc (fetch_add_steps T arg t) a c) as Hl
    by (intros; eapply rtc_l; eassumption).
  assert (is_lock_free cfg = false ->
          fetch_add T cfg fuel t arg order this = Some (r, this') ->
          rtc (fetch_add_steps T arg t)
            (fa_guard_ctor lock_enter, this) (fa_return r, this')) as Hguard.
  { intros Hcfg Hrun.
    assert (exists m, mutex_lock fuel t (mLock this) = Some m
                      /\ r = mValue this
                      /\ this' = {| mLock := mutex_unlock t m;
                                    mValue := convert T (mValue this + arg) |})
      as (m & Hlock & -> & ->).
    { destruct cfg; [discriminate| |];
        unfold fetch_add, bind, lock_guard_ctor, lock_guard_dtor, modify,
          gets, ret in Hrun; cbn in Hrun;
        destruct (mutex_lock fuel t (mLock this)) as [m|]; try discriminate;
        injection Hrun as <- <-; eauto. }
    destruct this as [m0 value]. cbn [mLock mValue] in *.
    destruct m0 as [h al|h]; cbn in Hlock.
    - destruct (Win32.EnterCriticalSection t h) as [h'|] eqn:Henter;
        [|discriminate].
      destruct al; [rewrite while_mAlreadyLocked_true in Hlock; discriminate|].
      rewrite while_mAlreadyLocked_false in Hlock. injection Hlock as <-.
      eapply Hl; [unfold fetch_add_steps; cbn; rewrite Henter; reflexivity|].
      do 9 (eapply Hl; [reflexivity|]). apply rtc_refl.
    - destruct (Posix.pthread_mutex_lock t h) as [h'|] eqn:Hlock';
        [|discriminate].
      injection Hlock as <-.
      eapply Hl; [unfold fetch_add_steps; cbn; rewrite Hlock'; reflexivity|].
      do 6 (eapply Hl; [reflexivity|]). apply rtc_refl. }
  destruct cfg; cbn [fetch_add_start]; try (apply Hguard; reflexivity).
  destruct this as [m value]. cbn. intros [= <- <-].
  eapply Hl; [reflexivity|]. apply rtc_refl.
Qed.

(** C5. Threads that each increment a shared cell once, by [fetch_add(1)],
    with nothing else done to the cell: however their steps interleave, when
    all have returned the cell holds the initial value plus the number of
    threads (in the arithmetic of [T], exactly so when the sum is in range);
    every interleaving can be continued until all threads have returned;
    and none goes on for ever.  This holds of every backend and platform,
    and of [atomic<int>] among the types. *)
Theorem no_lost_increment (T : int_type) (cfg : atomics) (p : platform)
    (v : Z) (n : nat) :
  in_range T v ->
  (forall s,
      rtc (system_step T 1) (system_init cfg p v n) s ->
      all_returned s ->
      mValue (cell s) = convert T (v + Z.of_nat n)
      /\ (in_range T (v + Z.of_nat n) -> mValue (cell s) = v + Z.of_nat n))
  /\ (forall s,
      rtc (system_step T 1) (system_init cfg p v n) s ->
      exists s', rtc (system_step T 1) s s' /\ all_returned s')
  /\ (forall k s,
      nsteps (system_step T 1) k (system_init cfg p v n) s ->
      (k <= 10 * n)%nat).
Proof.
  intros Hv.
  pose proof (invariant_init T 1 cfg p v n Hv) as Hinit.
  assert (forall s,
            rtc (system_step T 1) (system_init cfg p v n) s ->
            all_returned s ->
            mValue (cell s) = convert T (v + Z.of_nat n)) as Hfinal.
  { intros s Hrtc Hall.
    pose proof (invariant_rtc T 1 cfg p v _ _ Hinit Hrtc) as [Hval _ _].
    rewrite Hval, (count_stored_all_returned _ Hall).
    rewrite (rtc_length T 1 _ _ Hrtc). cbn. rewrite length_replicate.
    f_equal. lia. }
  split; [|split].
  - intros s Hrtc Hall. split; [exact (Hfinal s Hrtc Hall)|].
    intros Hr. rewrite (Hfinal s Hrtc Hall). apply convert_in_range, Hr.
  - intros s Hrtc. apply (invariant_completes T 1 cfg p v).
    exact (invariant_rtc T 1 cfg p v _ _ Hinit Hrtc).
  - intros k s Hn.
    pose proof (invariant_bounded T 1 cfg p v k _ _ Hinit Hn).
    pose proof (total_steps_left_init cfg p v n). lia.
Qed.

Lemma no_lost_increment_witness :
  (forall s,
      rtc (system_step int 1) (system_init NO_ATOMICS _TTHREAD_WIN32_ 40 2) s ->
      all_returned s ->
      mValue (cell s) = convert int (40 + Z.of_nat 2)
      /\ (in_range int (40 + Z.of_nat 2) -> mValue (cell s) = 40 + Z.of_nat 2))
  /\ (forall s,
      rtc (system_step int 1) (system_init NO_ATOMICS _TTHREAD_WIN32_ 40 2) s ->
      exists s', rtc (system_step int 1) s s' /\ all_returned s')
  /\ (forall k s,
      nsteps (system_step int 1) k
        (system_init NO_ATOMICS _TTHREAD_WIN32_ 40 2) s ->
      (k <= 10 * 2)%nat).
Proof.
  apply (no_lost_increment int NO_ATOMICS _TTHREAD_WIN32_ 40 2).
  unfold in_range. vm_compute. split; discriminate.
Defined.

(** An interleaving of two threads on Win32: thread 1 enters the critical
    section first, thread 0 can only wait until thread 1 has left it. *)
Ltac step_thread t :=
  eapply rtc_l; [eapply (thread_step _ _ t); reflexivity|]; cbn.

Example two_threads_win32 :
  rtc (system_step int 1)
    (system_init NO_ATOMICS _TTHREAD_WIN32_ 40 2)
    (System (Atomic.ctor_T _TTHREAD_WIN32_ 42) [fa_return 41; fa_return 40]).
Proof.
  unfold system_init. cbn.
  do 9 step_thread 1%nat. do 3 step_thread 0%nat. step_thread 1%nat.
  do 7 step_thread 0%nat. apply rtc_refl.
Qed.

Example thread_0_waits_win32 :
  fetch_add_step int 1 0%nat (fa_guard_ctor lock_enter)
    {| mLock := mutex_win32 {| Win32.OwningThread := Some 1%nat;
                               Win32.RecursionCount := 1 |} true;
       mValue := 40 |}
  = None.
Proof. reflexivity. Qed.

(** ** this_thread::sleep_for *)

Example sleep_for_100ms :
  sleep_for _TTHREAD_WIN32_ (milliseconds 100) = Some 100
  /\ sleep_for _TTHREAD_POSIX_ (milliseconds 100) = Some 100000.
Proof. split; vm_compute; reflexivity. Qed.

(** Within the range of [int] the conversion rounds: 0.6 ms and 1.5 ms are
    slept as 1 ms and 2 ms, where truncation would give 0 ms and 1 ms. *)
Example sleep_for_rounds :
  sleep_for _TTHREAD_WIN32_ (microseconds 600) = Some 1
  /\ sleep_for _TTHREAD_WIN32_ (microseconds 1500) = Some 2
  /\ sleep_for _TTHREAD_WIN32_ (microseconds 1499) = Some 1
  /\ sleep_for _TTHREAD_POSIX_ (nanoseconds 2500) = Some 3.
Proof. repeat split; vm_compute; reflexivity. Qed.

(** C9, at an input where it fails.  For [sleep_for(chrono::hours(1))]
    elsewhere than on Win32 the double is 3600000000.5, whose integer part
    is the number of microseconds asked for; it is above the largest [int],
    so the conversion to [int] that the code makes of it is undefined, and
    no [int] that [usleep] could be handed is the rounded interval.  The
    same holds from 36 minutes on. *)
Theorem sleep_for_one_hour_posix :
  trunc_double (sleep_for_double 1000000.0%float (hours 1)) = Some 3600000000
  /\ T_max int < 3600000000
  /\ sleep_for _TTHREAD_POSIX_ (hours 1) = None
  /\ sleep_for _TTHREAD_POSIX_ (minutes 36) = None
  /\ sleep_for _TTHREAD_POSIX_ (minutes 35) = Some 2100000000.
Proof. repeat split; vm_compute; reflexivity. Qed.

(** ** class lock_guard: copies *)

(** C8, at the inputs where it fails.  A guard can be copied and assigned.
    After [d = g] the default-constructed [d] remembers the mutex of [g],
    and the two destructors call [unlock()] twice for the one [lock()]; the
    same happens with a guard copy-constructed from [g].  After [g = d] the
    guard [g] has forgotten its mutex: its destructor calls nothing, and the
    mutex stays held by the thread. *)
Theorem lock_guard_copies_break_pairing (p : platform) (fuel : nat) (t : tid) :
  (exists s',
      guard_assigned_to_default fuel t ref_self (Probed (mutex_ctor p) [])
      = Some (tt, s')
      /\ calls s' = [call_lock t; call_unlock t; call_unlock t])
  /\ (exists s',
      guard_copy_constructed fuel t ref_self (Probed (mutex_ctor p) [])
      = Some (tt, s')
      /\ calls s' = [call_lock t; call_unlock t; call_unlock t])
  /\ (exists s',
      guard_assigned_from_default fuel t ref_self (Probed (mutex_ctor p) [])
      = Some (tt, s')
      /\ calls s' = [call_lock t]
      /\ held_by t (inner s')).
Proof.
  destruct (mutex_lock_ctor p fuel t) as (m & Hl & Hheld & _).
  unfold guard_assigned_to_default, guard_copy_constructed,
    guard_assigned_from_default, bind, ret, lock_guard_ctor, lock_guard_dtor,
    lock_guard_operator_assign, lock_guard_copy_ctor, lock_guard_default,
    modify.
  cbn -[mutex_lock mutex_unlock mutex_ctor]. rewrite Hl.
  cbn -[mutex_lock mutex_unlock mutex_ctor].
  split; [|split]; eexists; (split; [reflexivity|]); cbn; auto.
Qed.

Example guard_assigned_to_default_posix :
  guard_assigned_to_default 0 1%nat ref_self
    (Probed (mutex_ctor _TTHREAD_POSIX_) [])
  = Some (tt, Probed (mutex_ctor _TTHREAD_POSIX_)
                [call_lock 1%nat; call_unlock 1%nat; call_unlock 1%nat]).
Proof. reflexivity. Qed.

Example guard_assigned_from_default_win32 :
  guard_assigned_from_default 0 1%nat ref_self
    (Probed (mutex_ctor _TTHREAD_WIN32_) [])
  = Some (tt, Probed (mutex_win32 {| Win32.OwningThread := Some 1%nat;
                                     Win32.RecursionCount := 1 |} true)
                [call_lock 1%nat]).
Proof. reflexivity. Qed.

(** * Further properties *)

(** ** class recursive_mutex *)

Lemma recursive_lock_times_ctor (p : platform) (k : nat) (t : tid) :
  recursive_lock_times (S k) t (recursive_mutex_ctor p)
  = Some match p with
         | _TTHREAD_WIN32_ =>
             recursive_mutex_win32
               {| Win32.OwningThread := Some t; Win32.RecursionCount := S k |}
         | _TTHREAD_POSIX_ =>
             recursive_mutex_posix
               {| PosixRecursive.owner := Some t;
                  PosixRecursive.lock_count := S k |}
         end.
Proof.
  assert (forall k n,
    recursive_lock_times k t
      (recursive_mutex_win32
         {| Win32.OwningThread := Some t; Win32.RecursionCount := n |})
    = Some (recursive_mutex_win32
              {| Win32.OwningThread := Some t;
                 Win32.RecursionCount := (k + n)%nat |})) as Hw.
  { clear k. induction k as [|k IH]; intros n; [reflexivity|].
    cbn. unfold Win32.EnterCriticalSection, Win32.TryEnterCriticalSection.
    cbn. rewrite Nat.eqb_refl, IH. do 3 f_equal. lia. }
  assert (forall k n,
    recursive_lock_times k t
      (recursive_mutex_posix
         {| PosixRecursive.owner := Some t; PosixRecursive.lock_count := n |})
    = Some (recursive_mutex_posix
              {| PosixRecursive.owner := Some t;
                 PosixRecursive.lock_count := (k + n)%nat |})) as Hp.
  { clear k. induction k as [|k IH]; intros n; [reflexivity|].
    cbn. unfold PosixRecursive.pthread_mutex_lock,
      PosixRecursive.pthread_mutex_trylock.
    cbn. rewrite Nat.eqb_refl, IH. do 3 f_equal. lia. }
  destruct p; cbn.
  - rewrite Hw. do 3 f_equal. lia.
  - rewrite Hp. do 3 f_equal. lia.
Qed.

Lemma recursive_unlock_times_win32 (j n : nat) (t : tid) :
  (j <= n)%nat ->
  recursive_unlock_times j t
    (recursive_mutex_win32
       {| Win32.OwningThread := Some t; Win32.RecursionCount := S n |})
  = recursive_mutex_win32
      {| Win32.OwningThread := Some t;
         Win32.RecursionCount := (S n - j)%nat |}.
Proof.
  revert n. induction j as [|j IH]; intros n Hj; [reflexivity|].
  destruct n as [|n]; [lia|].
  cbn [recursive_unlock_times recursive_mutex_unlock].
  unfold Win32.LeaveCriticalSection. cbn. rewrite Nat.eqb_refl.
  rewrite IH by lia. reflexivity.
Qed.

Lemma recursive_unlock_times_posix (j n : nat) (t : tid) :
  (j <= n)%nat ->
  recursive_unlock_times j t
    (recursive_mutex_posix
       {| PosixRecursive.owner := Some t;
          PosixRecursive.lock_count := S n |})
  = recursive_mutex_posix
      {| PosixRecursive.owner := Some t;
         PosixRecursive.lock_count := (S n - j)%nat |}.
Proof.
  revert n. induction j as [|j IH]; intros n Hj; [reflexivity|].
  destruct n as [|n]; [lia|].
  cbn [recursive_unlock_times recursive_mutex_unlock].
  unfold PosixRecursive.pthread_mutex_unlock. cbn. rewrite Nat.eqb_refl.
  rewrite IH by lia. reflexivity.
Qed.

Lemma recursive_unlock_times_add (j i : nat) (t : tid) (m : recursive_mutex) :
  recursive_unlock_times (j + i) t m
  = recursive_unlock_times i t (recursive_unlock_times j t m).
Proof. revert m. induction j as [|j IH]; intros m; [reflexivity|apply IH]. Qed.

(** X1. A thread may lock a fresh recursive mutex any number of times
    without waiting.  As long as it has unlocked it fewer times than it
    locked it, another thread's [try_lock()] fails and changes nothing and
    another thread's [lock()] waits; with the last of as many [unlock()]s
    the mutex is as constructed again. *)
Theorem recursive_mutex_nesting (p : platform) (k j : nat) (t b : tid) :
  b <> t ->
  (j <= k)%nat ->
  exists m,
    recursive_lock_times (S k) t (recursive_mutex_ctor p) = Some m
    /\ recursive_mutex_try_lock b (recursive_unlock_times j t m)
       = (false, recursive_unlock_times j t m)
    /\ recursive_mutex_lock b (recursive_unlock_times j t m) = None
    /\ recursive_unlock_times (S k) t m = recursive_mutex_ctor p.
Proof.
  intros Hne Hj. eexists. split; [apply recursive_lock_times_ctor|].
  assert (S k = k + 1)%nat as Hk by lia.
  destruct p.
  - split; [|split].
    + rewrite recursive_unlock_times_win32 by exact Hj.
      destruct (S k - j)%nat as [|n] eqn:Hn; [lia|].
      cbn. unfold Win32.TryEnterCriticalSection. cbn.
      destruct (Nat.eqb_spec t b); [congruence|]. reflexivity.
    + rewrite recursive_unlock_times_win32 by exact Hj.
      destruct (S k - j)%nat as [|n] eqn:Hn; [lia|].
      cbn. unfold Win32.EnterCriticalSection, Win32.TryEnterCriticalSection.
      cbn. destruct (Nat.eqb_spec t b); [congruence|]. reflexivity.
    + rewrite Hk at 1. rewrite recursive_unlock_times_add.
      rewrite (recursive_unlock_times_win32 k k) by lia.
      replace (S k - k)%nat with 1%nat by lia.
      cbn. unfold Win32.LeaveCriticalSection. cbn.
      rewrite Nat.eqb_refl. reflexivity.
  - split; [|split].
    + rewrite recursive_unlock_times_posix by exact Hj.
      destruct (S k - j)%nat as [|n] eqn:Hn; [lia|].
      cbn. unfold PosixRecursive.pthread_mutex_trylock. cbn.
      destruct (Nat.eqb_spec t b); [congruence|]. reflexivity.
    + rewrite recursive_unlock_times_posix by exact Hj.
      destruct (S k - j)%nat as [|n] eqn:Hn; [lia|].
      cbn. unfold PosixRecursive.pthread_mutex_lock,
        PosixRecursive.pthread_mutex_trylock.
      cbn. destruct (Nat.eqb_spec t b); [congruence|]. reflexivity.
    + rewrite Hk at 1. rewrite recursive_unlock_times_add.
      rewrite (recursive_unlock_times_posix k k) by lia.
      replace (S k - k)%nat with 1%nat by lia.
      cbn. unfold PosixRecursive.pthread_mutex_unlock. cbn.
      rewrite Nat.eqb_refl. reflexivity.
Qed.

Lemma recursive_mutex_nesting_witness :
  exists m,
    recursive_lock_times 3 1%nat (recursive_mutex_ctor _TTHREAD_POSIX_)
    = Some m
    /\ recursive_mutex_try_lock 2%nat (recursive_unlock_times 2 1%nat m)
       = (false, recursive_unlock_times 2 1%nat m)
    /\ recursive_mutex_lock 2%nat (recursive_unlock_times 2 1%nat m) = None
    /\ recursive_unlock_times 3 1%nat m
       = recursive_mutex_ctor _TTHREAD_POSIX_.
Proof.
  apply (recursive_mutex_nesting _TTHREAD_POSIX_ 2 2 1%nat 2%nat).
  - discriminate.
  - lia.
Defined.

(** ** class mutex: [try_lock], [unlock] *)

(** X2. [try_lock()] on a consistent mutex either fails and leaves the
    mutex as it was, or succeeds and makes the caller its holder; the mutex
    stays consistent; and on a mutex as constructed it succeeds, after
    which [unlock()] gives the constructed mutex back. *)
Theorem try_lock_outcome (t : tid) (m : mutex) :
  mutex_wf m ->
  mutex_wf (snd (mutex_try_lock t m))
  /\ (fst (mutex_try_lock t m) = false -> snd (mutex_try_lock t m) = m)
  /\ (fst (mutex_try_lock t m) = true -> held_by t (snd (mutex_try_lock t m)))
  /\ (unlocked m ->
      fst (mutex_try_lock t m) = true
      /\ mutex_unlock t (snd (mutex_try_lock t m)) = m).
Proof.
  intros Hwf. unfold held_by.
  destruct m as [[[o|] [|n]] al|[o]]; cbn in *; try contradiction;
    unfold Win32.TryEnterCriticalSection, Win32.LeaveCriticalSection,
      Posix.pthread_mutex_unlock, Posix.pthread_mutex_trylock; cbn;
    try destruct (Nat.eqb_spec o t) as [->|Hne]; cbn;
    try destruct al; try destruct o; cbn; rewrite ?Nat.eqb_refl; cbn;
    repeat split; intros; try discriminate; try reflexivity; auto;
    repeat match goal with
      | H : unlocked _ |- _ =>
          destruct H as [[] H]; cbn in H; try discriminate; simplify_eq
      end.
Qed.

Lemma try_lock_outcome_witness :
  let m := mutex_win32 {| Win32.OwningThread := Some 1%nat;
                          Win32.RecursionCount := 1 |} true in
  mutex_wf (snd (mutex_try_lock 1%nat m))
  /\ (fst (mutex_try_lock 1%nat m) = false -> snd (mutex_try_lock 1%nat m) = m)
  /\ (fst (mutex_try_lock 1%nat m) = true ->
      held_by 1%nat (snd (mutex_try_lock 1%nat m)))
  /\ (unlocked m ->
      fst (mutex_try_lock 1%nat m) = true
      /\ mutex_unlock 1%nat (snd (mutex_try_lock 1%nat m)) = m).
Proof.
  apply (try_lock_outcome 1%nat
           (mutex_win32 {| Win32.OwningThread := Some 1%nat;
                           Win32.RecursionCount := 1 |} true)).
  exact I.
Defined.

(** X3. [lock()] on a mutex as constructed returns with the caller as
    holder; while it is held another thread's [lock()] does not return;
    [unlock()] by the holder gives the constructed mutex back, and the
    other thread's [lock()] then returns with that thread as holder. *)
Theorem mutex_handoff (p : platform) (fuel : nat) (a b : tid) :
  b <> a ->
  exists m1 m2,
    mutex_lock fuel a (mutex_ctor p) = Some m1
    /\ held_by a m1
    /\ mutex_wf m1
    /\ (forall fuel', mutex_lock fuel' b m1 = None)
    /\ mutex_unlock a m1 = mutex_ctor p
    /\ mutex_lock fuel b (mutex_unlock a m1) = Some m2
    /\ held_by b m2.
Proof.
  intros Hne. unfold held_by.
  destruct p; cbn; rewrite ?while_mAlreadyLocked_false.
  - eexists _, _. split; [reflexivity|]. cbn.
    unfold Win32.EnterCriticalSection, Win32.TryEnterCriticalSection,
      Win32.LeaveCriticalSection. cbn. rewrite Nat.eqb_refl.
    destruct (Nat.eqb_spec a b); [congruence|].
    rewrite while_mAlreadyLocked_false. cbn. auto 10.
  - eexists _, _. split; [reflexivity|]. cbn.
    unfold Posix.pthread_mutex_unlock. cbn. rewrite Nat.eqb_refl. auto 10.
Qed.

Lemma mutex_handoff_witness :
  exists m1 m2,
    mutex_lock 0 1%nat (mutex_ctor _TTHREAD_WIN32_) = Some m1
    /\ held_by 1%nat m1
    /\ mutex_wf m1
    /\ (forall fuel', mutex_lock fuel' 2%nat m1 = None)
    /\ mutex_unlock 1%nat m1 = mutex_ctor _TTHREAD_WIN32_
    /\ mutex_lock 0 2%nat (mutex_unlock 1%nat m1) = Some m2
    /\ held_by 2%nat m2.
Proof.
  apply (mutex_handoff _TTHREAD_WIN32_ 0 1%nat 2%nat). discriminate.
Defined.

(** ** class lock_guard: guards inside guards *)

(** X4. A second guard on a non-recursive mutex, constructed by the thread
    inside the scope of its first guard on it, never finishes its
    construction: the nested scopes do not return, whatever the fuel. *)
Theorem nested_guards_mutex_never_return {S : Type} (r : ref S mutex)
    (fuel : nat) (t : tid) (s : S) :
  (forall x s0, deref r (assign r x s0) = x) ->
  unlocked (deref r s) ->
  nested_guards fuel t r s = None
  /\ exists outer s1,
       lock_guard_ctor fuel t r s = Some (outer, s1)
       /\ forall fuel', lock_guard_ctor fuel' t r s1 = None.
Proof.
  intros Hget [p Hp].
  destruct (mutex_lock_ctor p fuel t) as (m & Hl & _ & _).
  destruct (relock_after_lock_never_returns p fuel t m Hl) as [Hnever _].
  assert (lock_guard_ctor fuel t r s
          = Some ({| mMutex := Some r |}, assign r m s)) as Hctor.
  { unfold lock_guard_ctor. cbn. rewrite Hp, Hl. reflexivity. }
  assert (forall fuel', lock_guard_ctor fuel' t r (assign r m s) = None)
    as Hinner.
  { intros fuel'. unfold lock_guard_ctor. cbn. rewrite Hget, Hnever.
    reflexivity. }
  split.
  - unfold nested_guards, bind. rewrite Hctor, Hinner. reflexivity.
  - eauto.
Qed.

Lemma nested_guards_mutex_never_return_witness :
  nested_guards 5 1%nat ref_self (mutex_ctor _TTHREAD_WIN32_) = None
  /\ exists outer s1,
       lock_guard_ctor 5 1%nat ref_self (mutex_ctor _TTHREAD_WIN32_)
       = Some (outer, s1)
       /\ forall fuel', lock_guard_ctor fuel' 1%nat ref_self s1 = None.
Proof.
  apply (nested_guards_mutex_never_return ref_self 5 1%nat
           (mutex_ctor _TTHREAD_WIN32_)).
  - reflexivity.
  - exists _TTHREAD_WIN32_. reflexivity.
Defined.

(** What [lock()] by the thread that has locked a recursive mutex [k] times
    does, and that [unlock()] undoes it. *)
Lemma recursive_lock_unlock (p : platform) (k : nat) (t : tid)
    (m : recursive_mutex) :
  recursive_lock_times k t (recursive_mutex_ctor p) = Some m ->
  exists m1,
    recursive_mutex_lock t m = Some m1
    /\ recursive_mutex_unlock t m1 = m
    /\ recursive_lock_times (S k) t (recursive_mutex_ctor p) = Some m1.
Proof.
  intros Hk. rewrite recursive_lock_times_ctor.
  destruct k as [|k].
  - cbn in Hk. injection Hk as <-.
    destruct p; (eexists; split; [reflexivity|]); cbn;
      unfold Win32.LeaveCriticalSection, PosixRecursive.pthread_mutex_unlock;
      cbn; rewrite Nat.eqb_refl; auto.
  - rewrite recursive_lock_times_ctor in Hk. injection Hk as <-.
    destruct p; cbn;
      unfold Win32.EnterCriticalSection, Win32.TryEnterCriticalSection,
        Win32.LeaveCriticalSection, PosixRecursive.pthread_mutex_lock,
        PosixRecursive.pthread_mutex_trylock,
        PosixRecursive.pthread_mutex_unlock; cbn;
      rewrite Nat.eqb_refl; (eexists; split; [reflexivity|]); cbn;
      rewrite Nat.eqb_refl; auto.
Qed.

(** X5. On a recursive mutex the nested guards are constructed and
    destroyed without waiting, and they leave the mutex as it was when the
    outer scope was entered, whether it was free or already locked by the
    thread any number of times. *)
Theorem nested_guards_recursive_mutex {St : Type}
    (r : ref St recursive_mutex) (fuel : nat) (t : tid) (s : St)
    (p : platform) (k : nat) :
  (forall x s0, deref r (assign r x s0) = x) ->
  (forall x y s0, assign r x (assign r y s0) = assign r x s0) ->
  (forall s0, assign r (deref r s0) s0 = s0) ->
  recursive_lock_times k t (recursive_mutex_ctor p) = Some (deref r s) ->
  nested_guards fuel t r s = Some (tt, s).
Proof.
  intros Hget Hput Hid Hk.
  destruct (recursive_lock_unlock p k t _ Hk) as (m1 & H1 & H4 & Hk1).
  destruct (recursive_lock_unlock p (S k) t _ Hk1) as (m2 & H2 & H3 & _).
  unfold nested_guards, bind, lock_guard_ctor, lock_guard_dtor, modify. cbn.
  rewrite H1, Hget, H2. cbn.
  repeat (rewrite ?Hget, ?Hput, ?H3, ?H4). rewrite Hid. reflexivity.
Qed.

Lemma nested_guards_recursive_mutex_witness :
  nested_guards 0 1%nat ref_self (recursive_mutex_ctor _TTHREAD_POSIX_)
  = Some (tt, recursive_mutex_ctor _TTHREAD_POSIX_).
Proof.
  apply (nested_guards_recursive_mutex ref_self 0 1%nat
           (recursive_mutex_ctor _TTHREAD_POSIX_) _TTHREAD_POSIX_ 0).
  - reflexivity.
  - reflexivity.
  - reflexivity.
  - reflexivity.
Defined.

(** ** struct atomic: calls in a row *)

Lemma run_atomic_call_value (T : int_type) (cfg : atomics) (fuel : nat)
    (c : atomic_call) (this : atomic) :
  unlocked (mLock this) ->
  in_range T (mValue this) ->
  atomic_call_typed T c ->
  run_atomic_call T cfg fuel c this
  = Some (fst (value_of_call T c (mValue this)),
          set_mValue (snd (value_of_call T c (mValue this))) this)
  /\ in_range T (snd (value_of_call T c (mValue this))).
Proof.
  intros Hu Hr Hc.
  destruct c; cbn [run_atomic_call value_of_call fst snd atomic_call_typed] in *;
    unfold operator_assign, operator_T, operator_inc, operator_inc_int,
      operator_dec, operator_dec_int, bind;
    rewrite ?store_spec, ?load_spec, ?fetch_add_spec, ?fetch_sub_spec
      by assumption;
    cbn; (split; [|auto using convert_range]);
    try reflexivity.
  - destruct this; reflexivity.
  - destruct this; reflexivity.
Qed.

Lemma run_atomic_calls_value (T : int_type) (cfg : atomics) (fuel : nat)
    (cs : list atomic_call) (this : atomic) :
  unlocked (mLock this) ->
  in_range T (mValue this) ->
  Forall (atomic_call_typed T) cs ->
  run_atomic_calls T cfg fuel cs this
  = Some (fst (value_of_calls T cs (mValue this)),
          set_mValue (snd (value_of_calls T cs (mValue this))) this)
  /\ in_range T (snd (value_of_calls T cs (mValue this))).
Proof.
  intros Hu Hr Hcs. revert this Hu Hr.
  induction Hcs as [|c cs Hc _ IH]; intros this Hu Hr.
  - cbn. split; [destruct this; reflexivity | exact Hr].
  - destruct (run_atomic_call_value T cfg fuel c this Hu Hr Hc) as [Hrun Hr1].
    cbn [run_atomic_calls value_of_calls]. unfold bind at 1. rewrite Hrun.
    destruct (value_of_call T c (mValue this)) as [r v1]. cbn [fst snd] in *.
    destruct (IH (set_mValue v1 this) Hu Hr1) as [Hrun' Hr2].
    unfold bind at 1. rewrite Hrun'. cbn [mValue set_mValue] in *.
    destruct (value_of_calls T cs v1) as [rs v2]. cbn [fst snd] in *.
    split; [|exact Hr2]. destruct this; reflexivity.
Qed.

(** X6. On a cell whose mutex is free and whose value is a value of [T],
    every sequence of calls of the methods of [atomic<T>] returns, on every
    backend: each call gives back the mutex it may have taken, and the
    value in the cell stays a value of [T]. *)
Theorem atomic_calls_return (T : int_type) (cfg : atomics) (fuel : nat)
    (cs : list atomic_call) (this : atomic) :
  unlocked (mLock this) ->
  in_range T (mValue this) ->
  Forall (atomic_call_typed T) cs ->
  exists rs this',
    run_atomic_calls T cfg fuel cs this = Some (rs, this')
    /\ length rs = length cs
    /\ mLock this' = mLock this
    /\ in_range T (mValue this').
Proof.
  intros Hu Hr Hcs.
  destruct (run_atomic_calls_value T cfg fuel cs this Hu Hr Hcs)
    as [Hrun Hr'].
  eexists _, _. split; [exact Hrun|]. split; [|split; [reflexivity|exact Hr']].
  generalize (mValue this) as v. clear.
  induction cs as [|c cs IH]; intros v; [reflexivity|].
  cbn [value_of_calls]. destruct (value_of_call T c v) as [r v1].
  specialize (IH v1). destruct (value_of_calls T cs v1) as [rs v2].
  cbn in *. f_equal. exact IH.
Qed.

Lemma atomic_calls_return_witness :
  exists rs this',
    run_atomic_calls unsigned_char NO_ATOMICS 0
      [call_store 1%nat 255 memory_order_seq_cst; call_operator_inc 2%nat;
       call_fetch_sub 1%nat 3 memory_order_relaxed; call_operator_T 2%nat]
      (Atomic.ctor _TTHREAD_WIN32_)
    = Some (rs, this')
    /\ length rs = 4%nat
    /\ mLock this' = mLock (Atomic.ctor _TTHREAD_WIN32_)
    /\ in_range unsigned_char (mValue this').
Proof.
  apply (atomic_calls_return unsigned_char NO_ATOMICS 0
           [call_store 1%nat 255 memory_order_seq_cst; call_operator_inc 2%nat;
            call_fetch_sub 1%nat 3 memory_order_relaxed; call_operator_T 2%nat]
           (Atomic.ctor _TTHREAD_WIN32_)).
  - exists _TTHREAD_WIN32_. reflexivity.
  - unfold in_range. vm_compute. split; discriminate.
  - repeat constructor; unfold in_range; vm_compute; discriminate.
Defined.

Example atomic_calls_uchar :
  run_atomic_calls unsigned_char NO_ATOMICS 0
    [call_store 1%nat 255 memory_order_seq_cst; call_operator_inc 2%nat;
     call_fetch_sub 1%nat 3 memory_order_relaxed; call_operator_T 2%nat]
    (Atomic.ctor _TTHREAD_WIN32_)
  = Some ([None; Some 0; Some 0; Some 253], Atomic.ctor_T _TTHREAD_WIN32_ 253).
Proof. reflexivity. Qed.

(** X7. The builtin path and the mutex-guarded path of [atomic<T>] cannot
    be told apart: two cells on any two backends and platforms that hold
    the same value of [T] return the same values over any sequence of
    calls and hold the same value afterwards. *)
Theorem atomic_backends_agree (T : int_type) (cfg1 cfg2 : atomics)
    (fuel1 fuel2 : nat) (cs : list atomic_call) (this1 this2 : atomic) :
  unlocked (mLock this1) ->
  unlocked (mLock this2) ->
  mValue this1 = mValue this2 ->
  in_range T (mValue this1) ->
  Forall (atomic_call_typed T) cs ->
  exists rs this1' this2',
    run_atomic_calls T cfg1 fuel1 cs this1 = Some (rs, this1')
    /\ run_atomic_calls T cfg2 fuel2 cs this2 = Some (rs, this2')
    /\ mValue this1' = mValue this2'.
Proof.
  intros Hu1 Hu2 Hv Hr Hcs.
  destruct (run_atomic_calls_value T cfg1 fuel1 cs this1 Hu1 Hr Hcs)
    as [Hrun1 _].
  rewrite Hv in Hr.
  destruct (run_atomic_calls_value T cfg2 fuel2 cs this2 Hu2 Hr Hcs)
    as [Hrun2 _].
  rewrite <- Hv in Hrun2. eexists _, _, _.
  split; [exact Hrun1|]. split; [exact Hrun2|]. reflexivity.
Qed.

Lemma atomic_backends_agree_witness :
  exists rs this1' this2',
    run_atomic_calls int HAS_ATOMIC_BUILTINS 0
      [call_fetch_add 1%nat 5 memory_order_seq_cst; call_operator_dec 2%nat]
      (Atomic.ctor_T _TTHREAD_POSIX_ 7)
    = Some (rs, this1')
    /\ run_atomic_calls int NO_ATOMICS 3
         [call_fetch_add 1%nat 5 memory_order_seq_cst; call_operator_dec 2%nat]
         (Atomic.ctor_T _TTHREAD_WIN32_ 7)
       = Some (rs, this2')
    /\ mValue this1' = mValue this2'.
Proof.
  apply (atomic_backends_agree int HAS_ATOMIC_BUILTINS NO_ATOMICS 0 3
           [call_fetch_add 1%nat 5 memory_order_seq_cst; call_operator_dec 2%nat]
           (Atomic.ctor_T _TTHREAD_POSIX_ 7) (Atomic.ctor_T _TTHREAD_WIN32_ 7)).
  - exists _TTHREAD_POSIX_. reflexivity.
  - exists _TTHREAD_WIN32_. reflexivity.
  - reflexivity.
  - unfold in_range. vm_compute. split; discriminate.
  - repeat constructor.
Defined.

(** ** struct atomic: how the operations compose *)

Lemma convert_sub_l (T : int_type) (x y : Z) :
  convert T (convert T x - y) = convert T (x - y).
Proof.
  replace (convert T x - y) with (convert T x + - y) by lia.
  rewrite convert_add_l. rewrite Z.add_opp_r. reflexivity.
Qed.

Lemma set_mValue_twice (v w : Z) (this : atomic) :
  set_mValue v (set_mValue w this) = set_mValue v this.
Proof. reflexivity. Qed.

Lemma set_mValue_same (this : atomic) : set_mValue (mValue this) this = this.
Proof. destruct this; reflexivity. Qed.

(** X8. [fetch_sub(a)] undoes [fetch_add(a)] and the other way round: after
    the two calls the cell of a value [v] of [T] holds [v] again, also when
    the sum or the difference in between went round the end of the range;
    the first call returns [v] and the second the value in between. *)
Theorem fetch_add_fetch_sub_inverse (T : int_type) (cfg : atomics)
    (fuel : nat) (t : tid) (a : Z) (order1 order2 : memory_order)
    (this : atomic) :
  unlocked (mLock this) ->
  in_range T (mValue this) ->
  (r1 <- fetch_add T cfg fuel t a order1 ;;
   r2 <- fetch_sub T cfg fuel t a order2 ;;
   ret (r1, r2)) this
  = Some ((mValue this, convert T (mValue this + a)), this)
  /\ (r1 <- fetch_sub T cfg fuel t a order1 ;;
      r2 <- fetch_add T cfg fuel t a order2 ;;
      ret (r1, r2)) this
     = Some ((mValue this, convert T (mValue this - a)), this).
Proof.
  intros Hu Hr. unfold bind, ret. split.
  - rewrite fetch_add_spec by assumption. cbn beta iota.
    rewrite fetch_sub_spec by exact Hu.
    cbn [mValue set_mValue]. rewrite set_mValue_twice, convert_sub_l.
    replace (mValue this + a - a) with (mValue this) by lia.
    rewrite (convert_in_range T (mValue this)) by assumption.
    rewrite set_mValue_same.
    reflexivity.
  - rewrite fetch_sub_spec by assumption. cbn beta iota.
    rewrite fetch_add_spec by exact Hu.
    cbn [mValue set_mValue]. rewrite set_mValue_twice, convert_add_l.
    replace (mValue this - a + a) with (mValue this) by lia.
    rewrite (convert_in_range T (mValue this)) by assumption.
    rewrite set_mValue_same.
    reflexivity.
Qed.

Lemma fetch_add_fetch_sub_inverse_witness :
  let this := Atomic.ctor_T _TTHREAD_POSIX_ 250 in
  (r1 <- fetch_add unsigned_char NO_ATOMICS 0 1%nat 10 memory_order_seq_cst ;;
   r2 <- fetch_sub unsigned_char NO_ATOMICS 0 1%nat 10 memory_order_seq_cst ;;
   ret (r1, r2)) this
  = Some ((mValue this, convert unsigned_char (mValue this + 10)), this)
  /\ (r1 <- fetch_sub unsigned_char NO_ATOMICS 0 1%nat 10 memory_order_seq_cst ;;
      r2 <- fetch_add unsigned_char NO_ATOMICS 0 1%nat 10 memory_order_seq_cst ;;
      ret (r1, r2)) this
     = Some ((mValue this, convert unsigned_char (mValue this - 10)), this).
Proof.
  apply (fetch_add_fetch_sub_inverse unsigned_char NO_ATOMICS 0 1%nat 10
           memory_order_seq_cst memory_order_seq_cst
           (Atomic.ctor_T _TTHREAD_POSIX_ 250)).
  - exists _TTHREAD_POSIX_. reflexivity.
  - unfold in_range. vm_compute. split; discriminate.
Defined.

Example fetch_add_wraps_and_back :
  (r1 <- fetch_add unsigned_char NO_ATOMICS 0 1%nat 10 memory_order_seq_cst ;;
   r2 <- fetch_sub unsigned_char NO_ATOMICS 0 1%nat 10 memory_order_seq_cst ;;
   ret (r1, r2)) (Atomic.ctor_T _TTHREAD_POSIX_ 250)
  = Some ((250, 4), Atomic.ctor_T _TTHREAD_POSIX_ 250).
Proof. reflexivity. Qed.

(** X9. Additions add up: [fetch_add(a)] followed by [fetch_add(b)] leaves
    the cell as one [fetch_add(a + b)] does, and [fetch_sub(a)] leaves it as
    [fetch_add(-a)] does, on every backend. *)
Theorem fetch_add_adds_up (T : int_type) (cfg : atomics) (fuel : nat)
    (t : tid) (a b : Z) (order : memory_order) (this : atomic) :
  unlocked (mLock this) ->
  (exists r this',
      (_ <- fetch_add T cfg fuel t a order ;;
       fetch_add T cfg fuel t b order) this = Some (convert T (mValue this + a), this')
      /\ fetch_add T cfg fuel t (a + b) order this = Some (r, this'))
  /\ fetch_sub T cfg fuel t a order this
     = fetch_add T cfg fuel t (- a) order this.
Proof.
  intros Hu. split.
  - unfold bind. rewrite (fetch_add_spec T cfg fuel t a) by assumption.
    cbn beta iota.
    rewrite (fetch_add_spec T cfg fuel t b) by exact Hu.
    rewrite (fetch_add_spec T cfg fuel t (a + b)) by assumption.
    cbn [mValue set_mValue]. rewrite set_mValue_twice, convert_add_l.
    rewrite Z.add_assoc. eauto.
  - rewrite fetch_add_spec, fetch_sub_spec by assumption.
    rewrite Z.add_opp_r. reflexivity.
Qed.

Lemma fetch_add_adds_up_witness :
  let this := Atomic.ctor_T _TTHREAD_WIN32_ 3 in
  (exists r this',
      (_ <- fetch_add int NO_ATOMICS 0 1%nat 4 memory_order_seq_cst ;;
       fetch_add int NO_ATOMICS 0 1%nat 5 memory_order_seq_cst) this
      = Some (convert int (mValue this + 4), this')
      /\ fetch_add int NO_ATOMICS 0 1%nat (4 + 5) memory_order_seq_cst this
         = Some (r, this'))
  /\ fetch_sub int NO_ATOMICS 0 1%nat 4 memory_order_seq_cst this
     = fetch_add int NO_ATOMICS 0 1%nat (- 4) memory_order_seq_cst this.
Proof.
  apply (fetch_add_adds_up int NO_ATOMICS 0 1%nat 4 5 memory_order_seq_cst
           (Atomic.ctor_T _TTHREAD_WIN32_ 3)).
  exists _TTHREAD_WIN32_. reflexivity.
Defined.

(** X10. [x = v] stores [v] and returns it, and the conversion of the cell
    to [T] then reads [v]; a cell constructed from [v] reads [v], and a
    default-constructed cell reads 0; on every backend, for [v] a value of
    [T]. *)
Theorem assign_and_convert (T : int_type) (cfg : atomics) (p : platform)
    (fuel : nat) (t : tid) (v : Z) (this : atomic) :
  unlocked (mLock this) ->
  in_range T v ->
  (r1 <- operator_assign T cfg fuel t v ;;
   r2 <- operator_T T cfg fuel t ;;
   ret (r1, r2)) this
  = Some ((v, v), set_mValue v this)
  /\ operator_T T cfg fuel t (Atomic.ctor_T p v)
     = Some (v, Atomic.ctor_T p v)
  /\ operator_T T cfg fuel t (Atomic.ctor p) = Some (0, Atomic.ctor p).
Proof.
  intros Hu Hv. unfold operator_assign, operator_T, bind, ret.
  rewrite store_spec by assumption. cbn beta iota.
  rewrite load_spec by (try exact Hu; exact Hv).
  split; [reflexivity|]. split.
  - apply load_spec; [exists p; reflexivity | exact Hv].
  - apply load_spec; [exists p; reflexivity | apply T_range_nonempty].
Qed.

Lemma assign_and_convert_witness :
  let this := Atomic.ctor _TTHREAD_POSIX_ in
  (r1 <- operator_assign signed_char NO_ATOMICS 0 1%nat (-7) ;;
   r2 <- operator_T signed_char NO_ATOMICS 0 1%nat ;;
   ret (r1, r2)) this
  = Some ((-7, -7), set_mValue (-7) this)
  /\ operator_T signed_char NO_ATOMICS 0 1%nat (Atomic.ctor_T _TTHREAD_WIN32_ (-7))
     = Some (-7, Atomic.ctor_T _TTHREAD_WIN32_ (-7))
  /\ operator_T signed_char NO_ATOMICS 0 1%nat (Atomic.ctor _TTHREAD_WIN32_)
     = Some (0, Atomic.ctor _TTHREAD_WIN32_).
Proof.
  apply (assign_and_convert signed_char NO_ATOMICS _TTHREAD_WIN32_ 0 1%nat (-7)
           (Atomic.ctor _TTHREAD_POSIX_)).
  - exists _TTHREAD_POSIX_. reflexivity.
  - unfold in_range. vm_compute. split; discriminate.
Defined.

(** ** class atomic_flag as a spin lock *)

Lemma spec_run_test_and_set_calls (l : list (tid * nat * memory_order))
    (rest : list flag_call) (flag : bool) :
  spec_run_calls (test_and_set_calls l ++ rest) flag
  = match l with
    | [] => spec_run_calls rest flag
    | _ :: l' =>
        (flag :: map (fun _ => true) l' ++ fst (spec_run_calls rest true),
         snd (spec_run_calls rest true))
    end.
Proof.
  revert flag. induction l as [|[[t lost] order] l IH]; intros flag;
    [reflexivity|].
  cbn [test_and_set_calls map app spec_run_calls spec_test_and_set].
  fold (test_and_set_calls l). rewrite IH.
  destruct l as [|c l]; cbn [map app fst snd].
  - destruct (spec_run_calls rest true). reflexivity.
  - reflexivity.
Qed.

(** X11. The flag as a spin lock.  Whatever the backend: once a
    [test_and_set] has been made, every further [test_and_set], by any
    thread, returns true until a [clear] is made, and the first
    [test_and_set] after the [clear] returns false. *)
Theorem flag_set_until_cleared (cfg : atomics) (fuel : nat)
    (this : AtomicFlag.atomic_flag)
    (first : tid * nat * memory_order)
    (again : list (tid * nat * memory_order))
    (tc : tid) (oc : memory_order) (next : tid * nat * memory_order) :
  unlocked (AtomicFlag.mLock this) ->
  exists this',
    run_calls cfg fuel
      (test_and_set_calls (first :: again)
       ++ call_clear tc oc :: test_and_set_calls [next]) this
    = Some (AtomicFlag.is_set this :: map (fun _ => true) again ++ [false],
            this')
    /\ AtomicFlag.is_set this' = true.
Proof.
  intros Hu.
  destruct (run_calls_refines cfg fuel
              (test_and_set_calls (first :: again)
               ++ call_clear tc oc :: test_and_set_calls [next]) this Hu)
    as (this' & Hrun & Hset & _).
  exists this'. rewrite Hrun, Hset. rewrite spec_run_test_and_set_calls.
  destruct next as [[t1 l1] o1]. cbn. auto.
Qed.

Lemma flag_set_until_cleared_witness :
  exists this',
    run_calls (HAS_ASM_ATOMICS GNUC_PPC) 0
      (test_and_set_calls
         ((1%nat, 0%nat, memory_order_acquire)
          :: [(2%nat, 3%nat, memory_order_acquire);
              (3%nat, 0%nat, memory_order_acquire)])
       ++ call_clear 1%nat memory_order_release
          :: test_and_set_calls [(2%nat, 1%nat, memory_order_acquire)])
      (AtomicFlag.ctor _TTHREAD_POSIX_)
    = Some (AtomicFlag.is_set (AtomicFlag.ctor _TTHREAD_POSIX_)
            :: map (fun _ => true)
                 [(2%nat, 3%nat, memory_order_acquire);
                  (3%nat, 0%nat, memory_order_acquire)] ++ [false],
            this')
    /\ AtomicFlag.is_set this' = true.
Proof.
  apply (flag_set_until_cleared (HAS_ASM_ATOMICS GNUC_PPC) 0
           (AtomicFlag.ctor _TTHREAD_POSIX_)
           (1%nat, 0%nat, memory_order_acquire)
           [(2%nat, 3%nat, memory_order_acquire);
            (3%nat, 0%nat, memory_order_acquire)]
           1%nat memory_order_release (2%nat, 1%nat, memory_order_acquire)).
  exists _TTHREAD_POSIX_. reflexivity.
Defined.

(** ** Threads in [fetch_add]: exclusion and results *)

Lemma mutex_at_held_by (p : platform) (t : tid) (pc : fetch_add_pc)
    (m : mutex) :
  mutex_at p t pc = Some m -> held_by t m.
Proof.
  unfold held_by.
  destruct p, pc as [|[]| | | |?[]|]; cbn; intros [= <-]; reflexivity.
Qed.

(** X12. Mutual exclusion.  However the steps of the threads in
    [fetch_add] interleave, at most one thread at a time is between the
    acquisition of the cell's mutex by its guard and its release, and that
    thread is the holder of the mutex. *)
Theorem fetch_add_mutual_exclusion (T : int_type) (arg : Z) (cfg : atomics)
    (p : platform) (v : Z) (n : nat) (s : system) :
  in_range T v ->
  rtc (system_step T arg) (system_init cfg p v n) s ->
  forall t1 t2 pc1 pc2,
    threads s !! t1 = Some pc1 ->
    threads s !! t2 = Some pc2 ->
    holding pc1 = true ->
    holding pc2 = true ->
    t1 = t2 /\ held_by t1 (mLock (cell s)).
Proof.
  intros Hv Hrtc t1 t2 pc1 pc2 Hl1 Hl2 Hh1 Hh2.
  pose proof (invariant_rtc T arg cfg p v _ _
                (invariant_init T arg cfg p v n Hv) Hrtc) as [_ _ Hmx].
  destruct Hmx as [[_ Hnone]|(h & pch & Hlh & Hhold & Hm & _ & Hothers)].
  - rewrite (Hnone t1 pc1 Hl1) in Hh1. discriminate.
  - destruct (decide (t1 = h)) as [->|Hne1];
      [|rewrite (Hothers t1 pc1 Hne1 Hl1) in Hh1; discriminate].
    destruct (decide (t2 = h)) as [->|Hne2];
      [|rewrite (Hothers t2 pc2 Hne2 Hl2) in Hh2; discriminate].
    split; [reflexivity|]. exact (mutex_at_held_by p h pch _ Hm).
Qed.

Lemma fetch_add_mutual_exclusion_witness :
  let s :=
    System {| mLock := mutex_win32 {| Win32.OwningThread := Some 1%nat;
                                      Win32.RecursionCount := 1 |} false;
              mValue := 0 |}
           [fa_guard_ctor lock_enter; fa_guard_ctor lock_while;
            fa_guard_ctor lock_enter] in
  1%nat = 1%nat /\ held_by 1%nat (mLock (cell s)).
Proof.
  apply (fetch_add_mutual_exclusion int 1 NO_ATOMICS _TTHREAD_WIN32_ 0 3
           (System {| mLock := mutex_win32
                                 {| Win32.OwningThread := Some 1%nat;
                                    Win32.RecursionCount := 1 |} false;
                      mValue := 0 |}
                   [fa_guard_ctor lock_enter; fa_guard_ctor lock_while;
                    fa_guard_ctor lock_enter]))
    with (pc1 := fa_guard_ctor lock_while) (pc2 := fa_guard_ctor lock_while).
  - unfold in_range. vm_compute. split; discriminate.
  - eapply rtc_l; [eapply (thread_step _ _ 1%nat); reflexivity|].
    apply rtc_refl.
  - reflexivity.
  - reflexivity.
  - reflexivity.
  - reflexivity.
Defined.

Lemma stored_results_insert_same (l : list fetch_add_pc) (t : nat)
    (pc pc' : fetch_add_pc) :
  l !! t = Some pc ->
  result_of pc' = result_of pc ->
  stored_results (<[t := pc']> l) = stored_results l.
Proof.
  unfold stored_results.
  revert t. induction l as [|x l IH]; intros [|t] Hl Hr; try discriminate.
  - injection Hl as ->. cbn. rewrite Hr. reflexivity.
  - change (<[S t:=pc']> (x :: l)) with (x :: <[t:=pc']> l).
    cbn [omap list_omap]. rewrite (IH t Hl Hr). reflexivity.
Qed.

Lemma stored_results_insert_new (l : list fetch_add_pc) (t : nat)
    (pc pc' : fetch_add_pc) (r : Z) :
  l !! t = Some pc ->
  result_of pc = None ->
  result_of pc' = Some r ->
  Permutation (stored_results (<[t := pc']> l)) (r :: stored_results l).
Proof.
  unfold stored_results.
  revert t. induction l as [|x l IH]; intros [|t] Hl Hn Hr; try discriminate.
  - injection Hl as ->. cbn. rewrite Hn, Hr. reflexivity.
  - change (<[S t:=pc']> (x :: l)) with (x :: <[t:=pc']> l).
    cbn [omap list_omap]. specialize (IH t Hl Hn Hr).
    destruct (result_of x).
    + rewrite IH. apply perm_swap.
    + exact IH.
Qed.

Lemma count_stored_length (l : list fetch_add_pc) :
  count_stored l = Z.of_nat (length (stored_results l)).
Proof.
  unfold stored_results. induction l as [|pc l IH]; [reflexivity|].
  cbn [count_stored omap list_omap]. rewrite IH.
  destruct pc; cbn; lia.
Qed.

Lemma tickets_S (T : int_type) (arg v : Z) (k : nat) :
  tickets T arg v (S k)
  = tickets T arg v k ++ [convert T (v + arg * Z.of_nat k)].
Proof. unfold tickets. rewrite seq_S, map_app. reflexivity. Qed.

Lemma not_holding_result_ok (this : atomic) (pc : fetch_add_pc) :
  holding pc = false -> result_ok this pc.
Proof. destruct pc; cbn; auto; discriminate. Qed.

(** What a step does to the result of the thread that takes it. *)
Lemma step_result (T : int_type) (arg v : Z) (t : tid)
    (pc pc' : fetch_add_pc) (this this' : atomic) (k : Z) :
  fetch_add_step T arg t pc this = Some (pc', this') ->
  result_ok this pc ->
  mValue this = convert T (v + arg * k) ->
  result_ok this' pc'
  /\ (result_of pc' = result_of pc
      \/ (result_of pc = None
          /\ result_of pc' = Some (convert T (v + arg * k)))).
Proof.
  intros Hstep Hok Hv.
  destruct this as [m value];
    destruct pc as [|[]| | | |?[]|]; cbn in *; try discriminate;
    destruct m as [[o c] al|[o]]; cbn in *;
    unfold Win32.EnterCriticalSection, Win32.TryEnterCriticalSection in *;
    cbn in *;
    repeat match goal with
      | H : context [match ?x with _ => _ end] |- _ =>
          destruct x eqn:?; cbn in *; try discriminate
      end;
    simplify_eq; cbn; auto.
Qed.

Lemma results_invariant_step (T : int_type) (arg : Z) (cfg : atomics)
    (p : platform) (v : Z) (s s' : system) :
  invariant T arg cfg p v s ->
  results_invariant T arg v s ->
  system_step T arg s s' ->
  results_invariant T arg v s'.
Proof.
  intros [Hv Hok Hmx] [Hperm Hrok] Hstep.
  destruct Hstep as [t pc pc' this' s Hl Hstep].
  destruct s as [this l]. cbn [cell threads] in *.
  destruct (step_result T arg v t pc pc' this this' _ Hstep (Hrok t pc Hl) Hv)
    as [Hrok' Hres].
  split; cbn [cell threads].
  - destruct Hres as [Hsame|[Hnone Hnew]].
    + rewrite (stored_results_insert_same l t pc pc' Hl Hsame). exact Hperm.
    + pose proof (stored_results_insert_new l t pc pc' _ Hl Hnone Hnew)
        as Hins.
      rewrite (Permutation_length Hins). cbn [length]. rewrite tickets_S.
      rewrite Hins, <- Permutation_cons_append.
      rewrite count_stored_length. apply Permutation_cons; [reflexivity|].
      exact Hperm.
  - intros j pcj Hlj. apply list_lookup_insert_Some in Hlj.
    destruct Hlj as [(_ & <- & _)|[Hne Hlj]]; [exact Hrok'|].
    destruct (holding pcj) eqn:Hhj; [|apply not_holding_result_ok, Hhj].
    destruct Hmx as [[_ Hnone]|(h & pch & Hlh & Hhold & Hm & _ & Hothers)];
      [rewrite (Hnone j pcj Hlj) in Hhj; discriminate|].
    destruct (decide (j = h)) as [->|Hnj];
      [|rewrite (Hothers j pcj Hnj Hlj) in Hhj; discriminate].
    assert (pc <> fa_builtin) as Hnb
      by (eapply (holding_not_builtins cfg pch); eauto).
    destruct (step_other T arg p t h pc pc' pch this this' Hstep
                (Hothers t pc Hne Hl) Hnb (not_eq_sym Hne) Hm) as [_ ->].
    exact (Hrok h pcj Hlj).
Qed.

Lemma results_invariant_rtc (T : int_type) (arg : Z) (cfg : atomics)
    (p : platform) (v : Z) (s s' : system) :
  invariant T arg cfg p v s ->
  results_invariant T arg v s ->
  rtc (system_step T arg) s s' ->
  results_invariant T arg v s'.
Proof.
  intros Hinv Hres Hrtc. induction Hrtc as [|s s1 s2 Hstep _ IH]; [exact Hres|].
  apply IH.
  - exact (proj1 (invariant_step T arg cfg p v s s1 Hinv Hstep)).
  - exact (results_invariant_step T arg cfg p v s s1 Hinv Hres Hstep).
Qed.

Lemma results_invariant_init (T : int_type) (arg : Z) (cfg : atomics)
    (p : platform) (v : Z) (n : nat) :
  results_invariant T arg v (system_init cfg p v n).
Proof.
  split; cbn [system_init cell threads].
  - replace (stored_results (replicate n (fetch_add_start cfg))) with (@nil Z);
      [reflexivity|].
    unfold stored_results. induction n as [|n IH]; [reflexivity|].
    cbn [replicate omap list_omap]. rewrite <- IH. destruct cfg; reflexivity.
  - intros t pc [-> _]%lookup_replicate. destruct cfg; exact I.
Qed.

Lemma stored_results_returned (l : list fetch_add_pc) (rs : list Z) :
  Forall2 (fun pc r => pc = fa_return r) l rs ->
  stored_results l = rs.
Proof.
  unfold stored_results. induction 1 as [|pc r l rs -> _ IH]; [reflexivity|].
  cbn. rewrite IH. reflexivity.
Qed.

(** X13. Every thread is handed its own value.  When [n] threads have each
    made one call of [fetch_add(arg)] on a cell that held [v], the values
    the calls returned are, in some order, the values the cell went
    through: [v], [v + arg], ..., [v + (n - 1) * arg] in the arithmetic of
    [T]; no value is returned twice over and none is skipped, however the
    steps of the threads interleaved. *)
Theorem fetch_add_results (T : int_type) (arg : Z) (cfg : atomics)
    (p : platform) (v : Z) (n : nat) (s : system) (rs : list Z) :
  in_range T v ->
  rtc (system_step T arg) (system_init cfg p v n) s ->
  Forall2 (fun pc r => pc = fa_return r) (threads s) rs ->
  Permutation rs (tickets T arg v n) /\ length rs = n.
Proof.
  intros Hv Hrtc Hrs.
  pose proof (invariant_init T arg cfg p v n Hv) as Hinit.
  pose proof (results_invariant_rtc T arg cfg p v _ _ Hinit
                (results_invariant_init T arg cfg p v n) Hrtc) as [Hperm _].
  rewrite (stored_results_returned _ _ Hrs) in Hperm.
  assert (length rs = n) as Hlen.
  { rewrite <- (Forall2_length _ _ _ Hrs), (rtc_length T arg _ _ Hrtc).
    cbn. apply length_replicate. }
  rewrite Hlen in Hperm. auto.
Qed.

Lemma fetch_add_results_witness :
  Permutation [41; 40] (tickets int 1 40 2) /\ length [41; 40] = 2%nat.
Proof.
  apply (fetch_add_results int 1 NO_ATOMICS _TTHREAD_WIN32_ 40 2
           (System (Atomic.ctor_T _TTHREAD_WIN32_ 42)
                   [fa_return 41; fa_return 40])
           [41; 40]).
  - unfold in_range. vm_compute. split; discriminate.
  - unfold system_init. cbn.
    do 9 step_thread 1%nat. do 3 step_thread 0%nat. step_thread 1%nat.
    do 7 step_thread 0%nat. apply rtc_refl.
  - repeat constructor.
Defined.

(** X14. No update is lost whatever is added: when [n] threads have each
    made one call of [fetch_add(arg)], for any [arg] (a negative one is what
    [fetch_sub] adds), the cell holds [v + n * arg] in the arithmetic of
    [T], however the steps interleaved; every interleaving can be run to
    the end, where all calls have returned. *)
Theorem fetch_add_no_lost_update (T : int_type) (arg : Z) (cfg : atomics)
    (p : platform) (v : Z) (n : nat) (s : system) :
  in_range T v ->
  rtc (system_step T arg) (system_init cfg p v n) s ->
  (all_returned s -> mValue (cell s) = convert T (v + Z.of_nat n * arg))
  /\ exists s', rtc (system_step T arg) s s'
                /\ all_returned s'
                /\ mValue (cell s') = convert T (v + Z.of_nat n * arg).
Proof.
  intros Hv Hrtc.
  pose proof (invariant_init T arg cfg p v n Hv) as Hinit.
  assert (forall s0, rtc (system_step T arg) (system_init cfg p v n) s0 ->
            all_returned s0 ->
            mValue (cell s0) = convert T (v + Z.of_nat n * arg)) as Hfinal.
  { intros s0 Hrtc0 Hall.
    pose proof (invariant_rtc T arg cfg p v _ _ Hinit Hrtc0) as [Hval _ _].
    rewrite Hval, (count_stored_all_returned _ Hall).
    rewrite (rtc_length T arg _ _ Hrtc0). cbn. rewrite length_replicate.
    f_equal. lia. }
  split; [exact (Hfinal s Hrtc)|].
  destruct (invariant_completes T arg cfg p v s
              (invariant_rtc T arg cfg p v _ _ Hinit Hrtc))
    as (s' & Hrtc' & Hall).
  exists s'. split; [exact Hrtc'|]. split; [exact Hall|].
  apply Hfinal; [|exact Hall]. etransitivity; eassumption.
Qed.

Lemma fetch_add_no_lost_update_witness :
  let s := system_init NO_ATOMICS _TTHREAD_POSIX_ 10 3 in
  (all_returned s -> mValue (cell s) = convert int (10 + Z.of_nat 3 * (-2)))
  /\ exists s', rtc (system_step int (-2)) s s'
                /\ all_returned s'
                /\ mValue (cell s') = convert int (10 + Z.of_nat 3 * (-2)).
Proof.
  apply (fetch_add_no_lost_update int (-2) NO_ATOMICS _TTHREAD_POSIX_ 10 3
           (system_init NO_ATOMICS _TTHREAD_POSIX_ 10 3)).
  - unfold in_range. vm_compute. split; discriminate.
  - apply rtc_refl.
Defined.

(** ** class thread::id *)

(** X15. The six comparisons of thread ids agree with one another and
    order the ids totally: [==] holds exactly of equal ids and [!=] is its
    negation; of [<], [==] and [>] exactly one holds; [<=] is [<] or [==],
    [>=] is the negation of [<] and [>] is [<] with the sides exchanged;
    [<] is transitive; and a copy of an id, made by construction or by
    assignment, compares equal to it. *)
Theorem thread_id_total_order (a b c this : ThreadId.id) :
  (ThreadId.operator_eq a b = true <-> a = b)
  /\ ThreadId.operator_ne a b = negb (ThreadId.operator_eq a b)
  /\ (ThreadId.operator_lt a b = true /\ ThreadId.operator_eq a b = false
        /\ ThreadId.operator_gt a b = false
      \/ ThreadId.operator_lt a b = false /\ ThreadId.operator_eq a b = true
        /\ ThreadId.operator_gt a b = false
      \/ ThreadId.operator_lt a b = false /\ ThreadId.operator_eq a b = false
        /\ ThreadId.operator_gt a b = true)
  /\ ThreadId.operator_le a b
     = ThreadId.operator_lt a b || ThreadId.operator_eq a b
  /\ ThreadId.operator_ge a b = negb (ThreadId.operator_lt a b)
  /\ ThreadId.operator_gt a b = ThreadId.operator_lt b a
  /\ (ThreadId.operator_lt a b = true -> ThreadId.operator_lt b c = true ->
      ThreadId.operator_lt a c = true)
  /\ ThreadId.operator_eq (ThreadId.ctor_copy a) a = true
  /\ ThreadId.operator_eq (ThreadId.operator_assign this a) a = true.
Proof.
  destruct a as [x], b as [y], c as [z].
  unfold ThreadId.operator_eq, ThreadId.operator_ne, ThreadId.operator_le,
    ThreadId.operator_lt, ThreadId.operator_ge, ThreadId.operator_gt,
    ThreadId.ctor_copy, ThreadId.operator_assign.
  cbn [ThreadId.mId].
  rewrite Z.geb_leb, Z.gtb_ltb.
  destruct (Z.eqb_spec x y), (Z.ltb_spec x y), (Z.ltb_spec y x),
    (Z.leb_spec x y), (Z.leb_spec y x), (Z.ltb_spec y z), (Z.ltb_spec x z);
    try lia; rewrite ?Z.eqb_refl;
    repeat split; intros; try congruence; try lia; auto 10;
    try (f_equal; lia).
Qed.

Example thread_id_default_is_no_thread :
  ThreadId.operator_eq ThreadId.ctor (ThreadId.ctor_ulong 0) = true
  /\ ThreadId.operator_lt ThreadId.ctor (ThreadId.ctor_ulong 7) = true.
Proof. split; reflexivity. Qed.

Lemma thread_id_total_order_witness :
  let a := ThreadId.ctor_ulong 1 in
  let b := ThreadId.ctor_ulong 2 in
  let c := ThreadId.ctor_ulong 3 in
  let this := ThreadId.ctor in
  (ThreadId.operator_eq a b = true <-> a = b)
  /\ ThreadId.operator_ne a b = negb (ThreadId.operator_eq a b)
  /\ (ThreadId.operator_lt a b = true /\ ThreadId.operator_eq a b = false
        /\ ThreadId.operator_gt a b = false
      \/ ThreadId.operator_lt a b = false /\ ThreadId.operator_eq a b = true
        /\ ThreadId.operator_gt a b = false
      \/ ThreadId.operator_lt a b = false /\ ThreadId.operator_eq a b = false
        /\ ThreadId.operator_gt a b = true)
  /\ ThreadId.operator_le a b
     = ThreadId.operator_lt a b || ThreadId.operator_eq a b
  /\ ThreadId.operator_ge a b = negb (ThreadId.operator_lt a b)
  /\ ThreadId.operator_gt a b = ThreadId.operator_lt b a
  /\ (ThreadId.operator_lt a b = true -> ThreadId.operator_lt b c = true ->
      ThreadId.operator_lt a c = true)
  /\ ThreadId.operator_eq (ThreadId.ctor_copy a) a = true
  /\ ThreadId.operator_eq (ThreadId.operator_assign this a) a = true.
Proof.
  exact (thread_id_total_order (ThreadId.ctor_ulong 1) (ThreadId.ctor_ulong 2)
           (ThreadId.ctor_ulong 3) ThreadId.ctor).
Defined.

(** ** this_thread::sleep_for over a range of counts *)

Lemma sleep_for_scales_from_sound (p : platform) (unit : Z -> duration)
    (scale c : Z) (n : nat) :
  sleep_for_scales_from p unit scale c n = true ->
  forall x, c <= x < c + Z.of_nat n -> sleep_for p (unit x) = Some (scale * x).
Proof.
  revert c. induction n as [|n IH]; cbn [sleep_for_scales_from];
    intros c Hall x Hx; [lia|].
  apply andb_true_iff in Hall as [Hc Hrest].
  destruct (Z.eq_dec x c) as [->|Hne].
  - unfold sleep_for_scales in Hc.
    destruct (sleep_for p (unit c)) as [z|]; [|discriminate].
    apply Z.eqb_eq in Hc. congruence.
  - apply (IH (c + 1) Hrest). lia.
Qed.

(** X16. For every count of milliseconds from 0 to 60000 the detour of
    [sleep_for] through [double] and [+ 0.5] loses nothing: [Sleep] is
    handed the count and [usleep] a thousand times the count; and for every
    count of seconds from 0 to 2147 they are handed a thousand and a million
    times the count. *)
Theorem sleep_for_exact (ms s : Z) :
  0 <= ms <= 60000 ->
  0 <= s <= 2147 ->
  sleep_for _TTHREAD_WIN32_ (milliseconds ms) = Some ms
  /\ sleep_for _TTHREAD_POSIX_ (milliseconds ms) = Some (1000 * ms)
  /\ sleep_for _TTHREAD_WIN32_ (seconds s) = Some (1000 * s)
  /\ sleep_for _TTHREAD_POSIX_ (seconds s) = Some (1000000 * s).
Proof.
  intros Hms Hs. repeat apply conj.
  - rewrite <- (Z.mul_1_l ms) at 2.
    apply (sleep_for_scales_from_sound _TTHREAD_WIN32_ milliseconds 1 0
             (Z.to_nat 60001)); [vm_compute; reflexivity | lia].
  - apply (sleep_for_scales_from_sound _TTHREAD_POSIX_ milliseconds 1000 0
             (Z.to_nat 60001)); [vm_compute; reflexivity | lia].
  - apply (sleep_for_scales_from_sound _TTHREAD_WIN32_ seconds 1000 0
             (Z.to_nat 2148)); [vm_compute; reflexivity | lia].
  - apply (sleep_for_scales_from_sound _TTHREAD_POSIX_ seconds 1000000 0
             (Z.to_nat 2148)); [vm_compute; reflexivity | lia].
Qed.

Lemma sleep_for_exact_witness :
  sleep_for _TTHREAD_WIN32_ (milliseconds 250) = Some 250
  /\ sleep_for _TTHREAD_POSIX_ (milliseconds 250) = Some (1000 * 250)
  /\ sleep_for _TTHREAD_WIN32_ (seconds 3) = Some (1000 * 3)
  /\ sleep_for _TTHREAD_POSIX_ (seconds 3) = Some (1000000 * 3).
Proof. apply (sleep_for_exact 250 3); lia. Defined.

(** The first count of seconds that is too long for [usleep]. *)
Example sleep_for_2148_seconds :
  sleep_for _TTHREAD_POSIX_ (seconds 2148) = None
  /\ sleep_for _TTHREAD_WIN32_ (seconds 2148) = Some 2148000.
Proof. split; vm_compute; reflexivity. Qed.

(** ** struct atomic: [is_lock_free] *)

Lemma mutex_lock_held_by_other (fuel : nat) (t b : tid) (m : mutex) :
  held_by b m -> t <> b -> mutex_lock fuel t m = None.
Proof.
  unfold held_by. intros Hheld Hne.
  destruct m as [[o n] al|[o]]; cbn in *.
  - destruct n as [|n]; [discriminate|]. subst o.
    unfold Win32.EnterCriticalSection, Win32.TryEnterCriticalSection. cbn.
    destruct (Nat.eqb_spec b t); [congruence|]. reflexivity.
  - subst o. reflexivity.
Qed.

(** X17. [is_lock_free()] tells whether a call can be made to wait.  While
    another thread holds the mutex of the cell: where [is_lock_free()]
    returns true, [store], [load], [fetch_add] and [fetch_sub] return all
    the same and leave that mutex alone; where it returns false, none of
    them returns. *)
Theorem is_lock_free_meaning (T : int_type) (cfg : atomics) (fuel : nat)
    (t b : tid) (a : Z) (order : memory_order) (this : atomic) :
  t <> b ->
  in_range T (mValue this) ->
  held_by b (mLock this) ->
  if is_lock_free cfg
  then store T cfg fuel t a order this = Some (tt, set_mValue a this)
       /\ load T cfg fuel t order this = Some (mValue this, this)
       /\ fetch_add T cfg fuel t a order this
          = Some (mValue this, set_mValue (convert T (mValue this + a)) this)
       /\ fetch_sub T cfg fuel t a order this
          = Some (mValue this, set_mValue (convert T (mValue this - a)) this)
  else store T cfg fuel t a order this = None
       /\ load T cfg fuel t order this = None
       /\ fetch_add T cfg fuel t a order this = None
       /\ fetch_sub T cfg fuel t a order this = None.
Proof.
  intros Hne Hr Hheld.
  pose proof (mutex_lock_held_by_other fuel t b _ Hheld Hne) as Hlock.
  destruct cfg; cbn [is_lock_free].
  - destruct this as [m v]. cbn in Hr.
    unfold store, load, fetch_add, fetch_sub, bind, on_mValue, ret,
      set_mValue; cbn.
    rewrite Z.add_0_r, convert_in_range by exact Hr. auto.
  - unfold store, load, fetch_add, fetch_sub, bind, lock_guard_ctor;
      cbn; rewrite Hlock; auto.
  - unfold store, load, fetch_add, fetch_sub, bind, lock_guard_ctor;
      cbn; rewrite Hlock; auto.
Qed.

Lemma is_lock_free_meaning_witness :
  let this := {| mLock := mutex_win32
                            {| Win32.OwningThread := Some 2%nat;
                               Win32.RecursionCount := 1 |} true;
                 mValue := 5 |} in
  store int NO_ATOMICS 9 1%nat 3 memory_order_seq_cst this = None
  /\ load int NO_ATOMICS 9 1%nat memory_order_seq_cst this = None
  /\ fetch_add int NO_ATOMICS 9 1%nat 3 memory_order_seq_cst this = None
  /\ fetch_sub int NO_ATOMICS 9 1%nat 3 memory_order_seq_cst this = None.
Proof.
  apply (is_lock_free_meaning int NO_ATOMICS 9 1%nat 2%nat 3
           memory_order_seq_cst
           {| mLock := mutex_win32
                         {| Win32.OwningThread := Some 2%nat;
                            Win32.RecursionCount := 1 |} true;
              mValue := 5 |}).
  - discriminate.
  - unfold in_range. vm_compute. split; discriminate.
  - reflexivity.
Defined.

(** ** class condition_variable, on Win32 *)

(** X18. [wait(aMutex)] by the thread that holds [aMutex] counts the thread
    among the waiters and gives [_wait()] the mutex released, as its
    constructor left it; when [_wait()] returns with the mutex free, [wait]
    returns with the mutex held by the thread again.  If the critical
    section of the waiter count is free before, it is free after. *)
Theorem wait_releases_and_reacquires
    (_wait : M (ConditionVariable.condition_variable * mutex) unit)
    (fuel : nat) (t : tid)
    (this this2 : ConditionVariable.condition_variable)
    (aMutex aMutex2 : mutex) :
  ConditionVariable.mWaitersCountLock this = Win32.InitializeCriticalSection ->
  mutex_lock fuel t (mutex_ctor _TTHREAD_WIN32_) = Some aMutex ->
  _wait (ConditionVariable.one_more_waiter this, mutex_ctor _TTHREAD_WIN32_)
  = Some (tt, (this2, aMutex2)) ->
  unlocked aMutex2 ->
  exists aMutex3,
    ConditionVariable.wait _wait fuel t (this, aMutex)
    = Some (tt, (this2, aMutex3))
    /\ held_by t aMutex3
    /\ mutex_unlock t aMutex3 = aMutex2.
Proof.
  intros Hfree Hlock Hwait Hu.
  destruct (mutex_lock_ctor _TTHREAD_WIN32_ fuel t) as (m & Hl & _ & Hul).
  rewrite Hlock in Hl. injection Hl as <-.
  destruct Hu as [p ->].
  destruct (mutex_lock_ctor p fuel t) as (m3 & Hl3 & Hheld & Hul3).
  exists m3. split; [|auto].
  destruct this as [ev cnt lk]. cbn in Hfree. subst lk.
  unfold ConditionVariable.wait, ConditionVariable.one_more_waiter in *.
  cbn -[convert mutex_ctor mutex_lock mutex_unlock] in *.
  unfold Win32.InitializeCriticalSection in Hwait.
  rewrite Nat.eqb_refl, Hul, Hwait. cbn -[mutex_ctor mutex_lock].
  rewrite Hl3. reflexivity.
Qed.

Lemma wait_releases_and_reacquires_witness :
  let this := {| ConditionVariable.mEvents := (1, 2);
                 ConditionVariable.mWaitersCount := 0;
                 ConditionVariable.mWaitersCountLock :=
                   Win32.InitializeCriticalSection |} in
  exists aMutex3,
    ConditionVariable.wait (fun s => Some (tt, s)) 0 1%nat
      (this, mutex_win32 {| Win32.OwningThread := Some 1%nat;
                            Win32.RecursionCount := 1 |} true)
    = Some (tt, (ConditionVariable.one_more_waiter this, aMutex3))
    /\ held_by 1%nat aMutex3
    /\ mutex_unlock 1%nat aMutex3 = mutex_ctor _TTHREAD_WIN32_.
Proof.
  apply (wait_releases_and_reacquires (fun s => Some (tt, s)) 0 1%nat
           {| ConditionVariable.mEvents := (1, 2);
              ConditionVariable.mWaitersCount := 0;
              ConditionVariable.mWaitersCountLock :=
                Win32.InitializeCriticalSection |}).
  - reflexivity.
  - reflexivity.
  - reflexivity.
  - exists _TTHREAD_WIN32_. reflexivity.
Defined.

(** X19. [wait] releases a recursive mutex once.  A thread that has locked
    a recursive mutex twice and waits gives [_wait()] a mutex that it still
    holds: while it waits, [try_lock()] by any other thread fails and
    [lock()] by any other thread waits. *)
Theorem wait_keeps_recursive_mutex
    (_wait : M (ConditionVariable.condition_variable * recursive_mutex) unit)
    (fuel : nat) (t b : tid)
    (this : ConditionVariable.condition_variable) (aMutex : recursive_mutex) :
  b <> t ->
  ConditionVariable.mWaitersCountLock this = Win32.InitializeCriticalSection ->
  recursive_lock_times 2 t (recursive_mutex_ctor _TTHREAD_WIN32_)
  = Some aMutex ->
  exists aMutex1,
    ConditionVariable.wait _wait fuel t (this, aMutex)
    = match _wait (ConditionVariable.one_more_waiter this, aMutex1) with
      | Some (_, (this2, aMutex2)) =>
          match recursive_mutex_lock t aMutex2 with
          | Some aMutex3 => Some (tt, (this2, aMutex3))
          | None => None
          end
      | None => None
      end
    /\ recursive_mutex_try_lock b aMutex1 = (false, aMutex1)
    /\ recursive_mutex_lock b aMutex1 = None.
Proof.
  intros Hne Hfree Hlock.
  rewrite recursive_lock_times_ctor in Hlock. injection Hlock as <-.
  eexists. split; [|split].
  - destruct this as [ev cnt lk]. cbn in Hfree. subst lk.
    unfold ConditionVariable.wait, ConditionVariable.one_more_waiter.
    unfold Win32.InitializeCriticalSection.
    cbn -[convert recursive_mutex_lock]. rewrite !Nat.eqb_refl. reflexivity.
  - cbn. unfold Win32.TryEnterCriticalSection. cbn.
    destruct (Nat.eqb_spec t b); [congruence|]. reflexivity.
  - cbn. unfold Win32.EnterCriticalSection, Win32.TryEnterCriticalSection.
    cbn. destruct (Nat.eqb_spec t b); [congruence|]. reflexivity.
Qed.

Lemma wait_keeps_recursive_mutex_witness :
  let this := {| ConditionVariable.mEvents := (1, 2);
                 ConditionVariable.mWaitersCount := 0;
                 ConditionVariable.mWaitersCountLock :=
                   Win32.InitializeCriticalSection |} in
  let aMutex := recursive_mutex_win32
                  {| Win32.OwningThread := Some 1%nat;
                     Win32.RecursionCount := 2 |} in
  exists aMutex1,
    ConditionVariable.wait (fun s => Some (tt, s)) 0 1%nat (this, aMutex)
    = match (fun s => Some (tt, s))
              (ConditionVariable.one_more_waiter this, aMutex1) with
      | Some (_, (this2, aMutex2)) =>
          match recursive_mutex_lock 1%nat aMutex2 with
          | Some aMutex3 => Some (tt, (this2, aMutex3))
          | None => None
          end
      | None => None
      end
    /\ recursive_mutex_try_lock 2%nat aMutex1 = (false, aMutex1)
    /\ recursive_mutex_lock 2%nat aMutex1 = None.
Proof.
  apply (wait_keeps_recursive_mutex (fun s => Some (tt, s)) 0 1%nat 2%nat
           {| ConditionVariable.mEvents := (1, 2);
              ConditionVariable.mWaitersCount := 0;
              ConditionVariable.mWaitersCountLock :=
                Win32.InitializeCriticalSection |}).
  - discriminate.
  - reflexivity.
  - reflexivity.
Defined.
